(** * petcam: a webcam streamed to many browsers

    A shallow embedding of [main.py].  One camera thread ([set_frames])
    keeps overwriting a single shared cell ([frame_buffer], a
    [deque(maxlen=1)]); every [GET /video] request owns one asynchronous
    generator ([get_frames]) that reads the cell and yields multipart
    chunks; the [lifespan] context manager starts the camera thread and
    sets its stop event at shutdown.

    The three activities run concurrently, so the program is embedded as
    a transition system: a [world] holds the shared objects and the
    program counter of every activity, an [action] names which activity
    executes its next statement, and [step] executes it.  A statement
    that touches the deque or the event does so in one step, as the
    methods of [collections.deque] and [threading.Event] do in CPython;
    the test of line 49 and the indexing of line 51 are two statements,
    between which the camera thread may run.  The camera device and the
    JPEG encoder are external; they are Variables of the Section holding
    the model. *)

From Stdlib Require Import QArith.
From Stdlib Require Import Strings.Byte.
From stdpp Require Import base list strings sorting.

Local Open Scope string_scope.
Local Open Scope list_scope.

(** ** Python values *)

(** [bytes] objects. *)
Definition bytes := list byte.

(** The bytes of an ASCII literal without escapes. *)
Definition b (s : string) : bytes := String.list_byte_of_string s.

(** [b'\r\n'] *)
Definition CRLF : bytes := [x0d; x0a].

(** A raw frame as [cap.read()] returns it (a numpy array), kept as its
    pixel buffer. *)
Definition ndarray := list byte.

(** An exception object: its class, whether the class derives from
    [Exception] (and not only from [BaseException]), and [str(e)]. *)
Record exn := Exn {
  exn_class : string;
  exn_is_Exception : bool;
  exn_str : string
}.

(** ** [collections.deque] with a [maxlen]

    The left end of the deque is the head of the list. *)
Module Deque.
Section Ops.
Context {A : Type}.

(** [d.append(x)]: add [x] on the right; when the deque is longer than
    [maxlen] afterwards, items are discarded from the left. *)
Definition append (maxlen : nat) (d : list A) (x : A) : list A :=
  let d' := d ++ [x] in drop (length d' - maxlen) d'.

(** [bool(d)], as in [if not d]. *)
Definition truthy (d : list A) : bool :=
  match d with [] => false | _ :: _ => true end.

(** [d[-1]]; [None] stands for [IndexError]. *)
Definition getitem_last (d : list A) : option A := last d.
End Ops.
End Deque.

(** [frame_buffer = deque(maxlen=1)] *)
Definition frame_buffer_maxlen : nat := 1.
Definition frame_buffer_init : list bytes := [].

(** ** The two uses of the buffer

    [publish] is line 35, [frame_buffer.append(jpeg.tobytes())]; [peek]
    is lines 49-51, [if not frame_buffer: continue] followed by
    [frame_buffer[-1]], [None] being the [continue]. *)
Definition publish (fb : list bytes) (jpeg : bytes) : list bytes :=
  Deque.append frame_buffer_maxlen fb jpeg.

Definition peek (fb : list bytes) : option bytes :=
  if Deque.truthy fb then Deque.getitem_last fb else None.

(** A sequence of operations on the buffer, and the buffer and the peek
    results (oldest first) it leaves. *)
Inductive slot_op := Publish (f : bytes) | Peek.

Fixpoint slot_run (ops : list slot_op) (fb : list bytes)
  : list (option bytes) * list bytes :=
  match ops with
  | [] => ([], fb)
  | Publish f :: ops' => slot_run ops' (publish fb f)
  | Peek :: ops' =>
      let '(rs, fb') := slot_run ops' fb in (peek fb :: rs, fb')
  end.

(** The frames an operation sequence publishes, oldest first. *)
Fixpoint published (ops : list slot_op) : list bytes :=
  match ops with
  | [] => []
  | Publish f :: ops' => f :: published ops'
  | Peek :: ops' => published ops'
  end.

(** ** The multipart chunk of [get_frames] (line 52)

    [b'--frame\r\nContent-Type: image/jpeg\r\n\r\n' + jpeg_bytes + b'\r\n'] *)
Definition chunk_head : bytes :=
  b "--frame" ++ CRLF ++ b "Content-Type: image/jpeg" ++ CRLF ++ CRLF.

Definition chunk (jpeg_bytes : bytes) : bytes :=
  chunk_head ++ jpeg_bytes ++ CRLF.

(** ** The camera thread, [set_frames] *)

(** What the device and the encoder answer. *)
Inductive open_result :=
  | IsOpened (opened : bool)          (* cap.isOpened() *)
  | OpenRaise (e : exn).              (* cv2.VideoCapture(0) raised *)

Inductive read_result :=
  | Read (ret : bool) (frame : ndarray)   (* ret, frame = cap.read() *)
  | ReadRaise (e : exn).

Inductive encode_result :=
  | Encoded (ret : bool) (jpeg : bytes)   (* ret, jpeg = cv2.imencode(..) *)
  | EncodeRaise (e : exn).

(** What the thread does that can be seen from outside. *)
Inductive cap_event :=
  | EvPublish (jpeg : bytes)     (* frame_buffer.append(..) *)
  | EvSleep (secs : Q)           (* time.sleep(..) *)
  | EvPrint (line : string).     (* print(..) *)

(** The statement the thread executes next. *)
Inductive cap_pc :=
  | C_open                       (* lines 24-27 *)
  | C_head                       (* line 28, the loop test *)
  | C_read                       (* lines 29-31 *)
  | C_encode (frame : ndarray)   (* lines 32-34 *)
  | C_append (jpeg : bytes)      (* line 35 *)
  | C_sleep                      (* line 36 *)
  | C_done.                      (* returned *)

Record cam_thread := CamThread {
  pc : cap_pc;
  reads : nat;                   (* calls of cap.read() so far *)
  trace : list cap_event         (* oldest first *)
}.

(** [time.sleep(0.034)] *)
Definition inter_frame_interval : Q := 0.034.

(** ** The generator behind one [/video] response, [get_frames] *)

Inductive gen_event :=
  | GAwait (secs : Q)            (* await asyncio.sleep(..) *)
  | GYield (chunk : bytes).      (* yield .. *)

Inductive gen_pc :=
  | G_settle                     (* line 43 *)
  | G_yield                      (* line 47 *)
  | G_check                      (* lines 49-50 *)
  | G_index                      (* lines 51-52 *)
  | G_fault (e : exn).           (* line 54 raised *)

Record session := Session {
  gpc : gen_pc;
  out : list gen_event           (* oldest first *)
}.

(** The chunks a session has yielded, oldest first. *)
Fixpoint chunks (evs : list gen_event) : list bytes :=
  match evs with
  | [] => []
  | GYield c :: evs' => c :: chunks evs'
  | GAwait _ :: evs' => chunks evs'
  end.

(** ** [lifespan] *)

Inductive start_result :=
  | StartOk                      (* Thread(..) and .start() returned *)
  | StartRaise (e : exn).

(** How the host resumes the generator at its [yield]. *)
Inductive resume :=
  | ResumeNormal
  | ResumeThrow (e : exn).

Inductive ls_event :=
  | LsThreadStart                (* camera_thread.start() *)
  | LsStopSet                    (* stop_event.set() *)
  | LsReturn                     (* the generator finished *)
  | LsRaise (e : exn).           (* the exception leaves lifespan *)

Inductive ls_pc :=
  | LS_init                      (* not entered *)
  | LS_running                   (* suspended at the yield, line 65 *)
  | LS_exited.

(** ** The whole service *)

Record world := World {
  frame_buffer : list bytes;
  stop_event : bool;             (* stop_event.is_set() *)
  lifespan_pc : ls_pc;
  lifespan_trace : list ls_event;
  camera_thread : option cam_thread;
  sessions : list session
}.

Definition initial_world : world :=
  World frame_buffer_init false LS_init [] None [].

Inductive action :=
  | A_startup (r : start_result)   (* the host enters lifespan *)
  | A_shutdown (r : resume)        (* the host leaves lifespan *)
  | A_camera                       (* the camera thread runs a statement *)
  | A_connect                      (* GET /video: video_feed calls get_frames() *)
  | A_session (i : nat).           (* session i runs to its next statement *)

(** [except Exception as e: raise Exception(f"{e}")] on the way out of
    [lifespan]: an [Exception] is replaced, anything else passes. *)
Definition lifespan_reraise (e : exn) : exn :=
  if exn_is_Exception e then Exn "Exception" true (exn_str e) else e.

(** [except Exception as e: raise Exception(f"error while getting frames: {e}.")] *)
Definition get_frames_reraise (e : exn) : exn :=
  if exn_is_Exception e
  then Exn "Exception" true ("error while getting frames: " +:+ exn_str e +:+ ".")
  else e.

(** [frame_buffer[-1]] on an empty deque *)
Definition IndexError : exn := Exn "IndexError" true "deque index out of range".

Section Service.
(** The capture device and the encoder. *)
Variable cam_open : open_result.
Variable cam_read : nat -> read_result.       (* the n-th cap.read() *)
Variable imencode : ndarray -> encode_result.

(** [except Exception as e: print(f"Error while setting frames: {e}")],
    after which [set_frames] returns.  An exception that is not an
    [Exception] ends the thread as well, without the line. *)
Definition set_frames_except (e : exn) (t : cam_thread) : cam_thread :=
  if exn_is_Exception e
  then CamThread C_done (reads t)
         (trace t ++ [EvPrint ("Error while setting frames: " +:+ exn_str e)])
  else CamThread C_done (reads t) (trace t).

(** One statement of [set_frames], given what [stop_event.is_set()]
    answers now and the buffer. *)
Definition set_frames_step (stop : bool) (fb : list bytes) (t : cam_thread)
  : list bytes * cam_thread :=
  match pc t with
  | C_open =>
      match cam_open with
      | IsOpened true => (fb, CamThread C_head (reads t) (trace t))
      | IsOpened false =>
          (fb, CamThread C_done (reads t)
                 (trace t ++ [EvPrint "Cannot open camera"]))
      | OpenRaise e => (fb, set_frames_except e t)
      end
  | C_head =>
      if stop then (fb, CamThread C_done (reads t) (trace t))
      else (fb, CamThread C_read (reads t) (trace t))
  | C_read =>
      match cam_read (reads t) with
      | Read true frame => (fb, CamThread (C_encode frame) (S (reads t)) (trace t))
      | Read false _ => (fb, CamThread C_head (S (reads t)) (trace t))
      | ReadRaise e => (fb, set_frames_except e (CamThread C_read (S (reads t)) (trace t)))
      end
  | C_encode frame =>
      match imencode frame with
      | Encoded true jpeg => (fb, CamThread (C_append jpeg) (reads t) (trace t))
      | Encoded false _ => (fb, CamThread C_head (reads t) (trace t))
      | EncodeRaise e => (fb, set_frames_except e t)
      end
  | C_append jpeg =>
      (Deque.append frame_buffer_maxlen fb jpeg,
       CamThread C_sleep (reads t) (trace t ++ [EvPublish jpeg]))
  | C_sleep =>
      (fb, CamThread C_head (reads t) (trace t ++ [EvSleep inter_frame_interval]))
  | C_done => (fb, t)
  end.

(** One statement of [get_frames], given the buffer. *)
Definition get_frames_step (fb : list bytes) (s : session) : session :=
  match gpc s with
  | G_settle => Session G_yield (out s ++ [GAwait 0.1])
  | G_yield => Session G_check (out s ++ [GAwait 0])
  | G_check =>
      if Deque.truthy fb then Session G_index (out s)
      else Session G_yield (out s)
  | G_index =>
      match Deque.getitem_last fb with
      | Some jpeg_bytes => Session G_yield (out s ++ [GYield (chunk jpeg_bytes)])
      | None => Session (G_fault (get_frames_reraise IndexError)) (out s)
      end
  | G_fault e => s
  end.

(** [lifespan] up to its [yield]. *)
Definition lifespan_startup (r : start_result) (w : world) : world :=
  match lifespan_pc w with
  | LS_init =>
      match r with
      | StartOk =>
          World (frame_buffer w) false LS_running
            (lifespan_trace w ++ [LsThreadStart])
            (Some (CamThread C_open 0 [])) (sessions w)
      | StartRaise e =>
          World (frame_buffer w) true LS_exited
            (lifespan_trace w ++ [LsStopSet; LsRaise (lifespan_reraise e)])
            (camera_thread w) (sessions w)
      end
  | _ => w
  end.

(** [lifespan] from its [yield] on. *)
Definition lifespan_shutdown (r : resume) (w : world) : world :=
  match lifespan_pc w with
  | LS_running =>
      World (frame_buffer w) true LS_exited
        (lifespan_trace w ++
           LsStopSet ::
           match r with
           | ResumeNormal => [LsReturn]
           | ResumeThrow e => [LsRaise (lifespan_reraise e)]
           end)
        (camera_thread w) (sessions w)
  | _ => w
  end.

Definition step (a : action) (w : world) : world :=
  match a with
  | A_startup r => lifespan_startup r w
  | A_shutdown r => lifespan_shutdown r w
  | A_camera =>
      match camera_thread w with
      | Some t =>
          let '(fb, t') := set_frames_step (stop_event w) (frame_buffer w) t in
          World fb (stop_event w) (lifespan_pc w) (lifespan_trace w)
            (Some t') (sessions w)
      | None => w
      end
  | A_connect =>
      World (frame_buffer w) (stop_event w) (lifespan_pc w) (lifespan_trace w)
        (camera_thread w) (sessions w ++ [Session G_settle []])
  | A_session i =>
      match sessions w !! i with
      | Some s =>
          World (frame_buffer w) (stop_event w) (lifespan_pc w) (lifespan_trace w)
            (camera_thread w)
            (<[i := get_frames_step (frame_buffer w) s]> (sessions w))
      | None => w
      end
  end.

(** A schedule, executed from left to right. *)
Definition run (sch : list action) (w : world) : world :=
  fold_left (fun w a => step a w) sch w.

(** The camera thread on its own for [n] statements, the stop event
    staying as it is. *)
Fixpoint set_frames_steps (n : nat) (stop : bool) (fb : list bytes) (t : cam_thread)
  : list bytes * cam_thread :=
  match n with
  | O => (fb, t)
  | S n' =>
      let '(fb', t') := set_frames_step stop fb t in
      set_frames_steps n' stop fb' t'
  end.
End Service.

(** The frames and the sleeps of a camera trace. *)
Fixpoint trace_published (tr : list cap_event) : list bytes :=
  match tr with
  | [] => []
  | EvPublish f :: tr' => f :: trace_published tr'
  | _ :: tr' => trace_published tr'
  end.

Fixpoint trace_sleeps (tr : list cap_event) : list Q :=
  match tr with
  | [] => []
  | EvSleep q :: tr' => q :: trace_sleeps tr'
  | _ :: tr' => trace_sleeps tr'
  end.

(** * The vocabulary of the properties *)

(** The frames the camera thread of a world has published so far. *)
Definition cam_published (w : world) : list bytes :=
  match camera_thread w with
  | Some t => trace_published (trace t)
  | None => []
  end.

(** The sleeps of the camera thread of a world. *)
Definition cam_sleeps (w : world) : list Q :=
  match camera_thread w with
  | Some t => trace_sleeps (trace t)
  | None => []
  end.

(** The chunks [cs] are frames of [pubs], taken in the order of [pubs]
    (a frame may be taken several times, none after a later one). *)
Definition in_publish_order (pubs : list bytes) (cs : list bytes) : Prop :=
  exists idx : list nat,
    StronglySorted le idx /\
    Forall2 (fun i c => exists f, pubs !! i = Some f /\ c = chunk f) idx cs.

(** The buffer holds the frame the camera thread published last, and
    there is no camera thread before [lifespan] is entered. *)
Definition buffer_is_latest (w : world) : Prop :=
  frame_buffer w =
    match last (cam_published w) with Some f => [f] | None => [] end /\
  (lifespan_pc w = LS_init -> camera_thread w = None).

(** What holds of every session: it has not raised, it is at line 51
    only when the buffer is not empty, and its chunks are published
    frames in publication order. *)
Definition session_ok (fb pubs : list bytes) (s : session) : Prop :=
  (forall e, gpc s <> G_fault e) /\
  (gpc s = G_index -> fb <> []) /\
  in_publish_order pubs (chunks (out s)).

Definition sessions_ok (w : world) : Prop :=
  Forall (session_ok (frame_buffer w) (cam_published w)) (sessions w).

Definition world_ok (w : world) : Prop :=
  buffer_is_latest w /\ sessions_ok w.

(** Every publish in the trace is followed at once by the sleep, or it
    is the last event and the thread is at the sleep. *)
Definition publish_then_sleep (t : cam_thread) : Prop :=
  forall pre f post, trace t = pre ++ EvPublish f :: post ->
    (post = [] /\ pc t = C_sleep) \/
    (exists post', post = EvSleep inter_frame_interval :: post').

(** Every sleep in the trace is the inter-frame sleep and follows a
    publish at once. *)
Definition sleep_after_publish (t : cam_thread) : Prop :=
  (pc t = C_sleep -> exists pre f, trace t = pre ++ [EvPublish f]) /\
  forall pre q post, trace t = pre ++ EvSleep q :: post ->
    q = inter_frame_interval /\ exists pre' f, pre = pre' ++ [EvPublish f].

Definition lifespan_ok (w : world) : Prop :=
  match lifespan_pc w with
  | LS_init =>
      stop_event w = false /\ lifespan_trace w = [] /\ camera_thread w = None
  | LS_running =>
      stop_event w = false /\ lifespan_trace w = [LsThreadStart] /\
      is_Some (camera_thread w)
  | LS_exited =>
      stop_event w = true /\
      ((exists e, lifespan_trace w = [LsStopSet; LsRaise e] /\
          camera_thread w = None) \/
       (exists last, lifespan_trace w = [LsThreadStart; LsStopSet; last] /\
          (last = LsReturn \/ exists e, last = LsRaise e) /\
          is_Some (camera_thread w)))
  end.

(** Once the stop event is set it stays set, whatever runs. *)
Definition stopped (w : world) : Prop :=
  stop_event w = true /\ lifespan_pc w = LS_exited.

(** With the stop event set, the publishes and the statements the
    camera thread still has before it returns. *)
Definition publishes_left (p : cap_pc) : nat :=
  match p with
  | C_read | C_encode _ | C_append _ => 1
  | _ => 0
  end.

Definition sleeps_left (p : cap_pc) : nat :=
  match p with
  | C_read | C_encode _ | C_append _ | C_sleep => 1
  | _ => 0
  end.

Definition statements_left (p : cap_pc) : nat :=
  match p with
  | C_read => 5
  | C_encode _ => 4
  | C_append _ => 3
  | C_open | C_sleep => 2
  | C_head => 1
  | C_done => 0
  end.

(** The camera statements of a schedule. *)
Fixpoint camera_steps (sch : list action) : nat :=
  match sch with
  | [] => 0
  | A_camera :: sch' => S (camera_steps sch')
  | _ :: sch' => camera_steps sch'
  end.

(** The n-th raw frame of the test device: n bytes. *)
Definition test_frame (n : nat) : ndarray := repeat "x"%byte n.

(** An encoder that always succeeds. *)
Definition encode_always (frame : ndarray) : encode_result :=
  Encoded true (b "JPEG" ++ frame).

(** An encoder in an outage: every encoding fails. *)
Definition encode_never (frame : ndarray) : encode_result := Encoded false [].

(** A device whose every third read fails: reads 0 and 1 give a frame,
    read 2 does not, and so on. *)
Definition read_two_of_three (n : nat) : read_result :=
  Read (negb (Nat.eqb (n mod 3) 2)) (test_frame n).

(** A device in an outage: every read fails. *)
Definition read_never (n : nat) : read_result := Read false [].

(** A device that always gives a frame. *)
Definition read_always (n : nat) : read_result := Read true (test_frame n).

(** [k] chunks of the frame a peek of [fb] returns. *)
Definition peek_chunks (fb : list bytes) (k : nat) : list bytes :=
  match peek fb with
  | Some f => repeat (chunk f) k
  | None => []
  end.

(** Session [s'] is session [s] after some chunks of the frame in [fb]. *)
Definition yields_frame_of (fb : list bytes) (s s' : session) : Prop :=
  exists k, chunks (out s') = chunks (out s) ++ peek_chunks fb k.

(** A schedule without the statements of the sessions and without new
    connections. *)
Fixpoint producer_side (sch : list action) : list action :=
  match sch with
  | [] => []
  | A_connect :: sch' | A_session _ :: sch' => producer_side sch'
  | a :: sch' => a :: producer_side sch'
  end.

(** Two worlds that differ in their sessions only. *)
Definition same_producer (w1 w2 : world) : Prop :=
  frame_buffer w1 = frame_buffer w2 /\
  stop_event w1 = stop_event w2 /\
  lifespan_pc w1 = lifespan_pc w2 /\
  lifespan_trace w1 = lifespan_trace w2 /\
  camera_thread w1 = camera_thread w2.

(** What the camera thread does in three turns of the loop on
    [read_two_of_three], starting with read number [3 * k]. *)
Definition three_turns (k : nat) : list cap_event :=
  [ EvPublish (b "JPEG" ++ test_frame (k * 3)); EvSleep inter_frame_interval;
    EvPublish (b "JPEG" ++ test_frame (S (k * 3))); EvSleep inter_frame_interval ].

(** A schedule on which the camera thread publishes a frame and sleeps:
    lifespan starts the thread, which runs lines 24 to 36 once. *)
Definition one_turn : list action :=
  [A_startup StartOk; A_camera; A_camera; A_camera; A_camera; A_camera; A_camera].

(** What [Thread.start] raises when no thread can be created. *)
Definition RuntimeError : exn := Exn "RuntimeError" true "can't start new thread".

(** ** More vocabulary: the functions as a whole *)

(** What turn [k] of the loop of [set_frames] publishes: the encoding of
    the frame of read number [k], when the read and the encoding both
    succeed. *)
Definition cycle_result (cam_read : nat -> read_result)
    (imencode : ndarray -> encode_result) (k : nat) : option bytes :=
  match cam_read k with
  | Read true frame =>
      match imencode frame with
      | Encoded true jpeg => Some jpeg
      | _ => None
      end
  | _ => None
  end.

(** What the first [n] turns publish, oldest first. *)
Definition cycles (cam_read : nat -> read_result)
    (imencode : ndarray -> encode_result) (n : nat) : list bytes :=
  omap (cycle_result cam_read imencode) (seq 0 n).

(** The published frames of a camera thread are those of the turns it
    has completed; the turn in progress at lines 32-35 has read its
    frame and not published yet. *)
Definition camera_accounted (cam_read : nat -> read_result)
    (imencode : ndarray -> encode_result) (t : cam_thread) : Prop :=
  match pc t with
  | C_encode frame =>
      exists n, reads t = S n /\ cam_read n = Read true frame /\
        trace_published (trace t) = cycles cam_read imencode n
  | C_append jpeg =>
      exists n, reads t = S n /\ cycle_result cam_read imencode n = Some jpeg /\
        trace_published (trace t) = cycles cam_read imencode n
  | _ => trace_published (trace t) = cycles cam_read imencode (reads t)
  end.

(** The exception the next statement of the camera thread raises. *)
Definition raises (cam_open : open_result) (cam_read : nat -> read_result)
    (imencode : ndarray -> encode_result) (t : cam_thread) : option exn :=
  match pc t with
  | C_open => match cam_open with OpenRaise e => Some e | _ => None end
  | C_read => match cam_read (reads t) with ReadRaise e => Some e | _ => None end
  | C_encode frame =>
      match imencode frame with EncodeRaise e => Some e | _ => None end
  | _ => None
  end.

(** The camera thread is not between a read and its publish. *)
Definition between_turns (p : cap_pc) : Prop :=
  match p with
  | C_read | C_encode _ | C_append _ => False
  | _ => True
  end.

(** The trace of a session: nothing before the settle delay; then the
    delay first, and every chunk right after an [await asyncio.sleep(0)]. *)
Definition session_shape (s : session) : Prop :=
  (out s = [] <-> gpc s = G_settle) /\
  (out s <> [] -> exists rest, out s = GAwait 0.1 :: rest) /\
  (gpc s = G_check \/ gpc s = G_index -> exists pre, out s = pre ++ [GAwait 0]) /\
  (forall pre c post, out s = pre ++ GYield c :: post ->
     exists pre', pre = pre' ++ [GAwait 0]).

(** One session on its own for [n] statements, on a buffer that stays as
    it is. *)
Fixpoint get_frames_steps (n : nat) (fb : list bytes) (s : session) : session :=
  match n with
  | O => s
  | S n' => get_frames_steps n' fb (get_frames_step fb s)
  end.

(** The statements a session has before its next chunk, on a buffer that
    is not empty. *)
Definition statements_to_chunk (p : gen_pc) : nat :=
  match p with
  | G_settle => 4
  | G_yield => 3
  | G_check => 2
  | G_index => 1
  | G_fault _ => 0
  end.

(** The statements of session [i] in a schedule. *)
Fixpoint session_steps (i : nat) (sch : list action) : nat :=
  match sch with
  | [] => 0
  | A_session j :: sch' =>
      if Nat.eqb i j then S (session_steps i sch') else session_steps i sch'
  | _ :: sch' => session_steps i sch'
  end.

(** A schedule without the statements of the sessions other than [i]. *)
Fixpoint without_others (i : nat) (sch : list action) : list action :=
  match sch with
  | [] => []
  | A_session j :: sch' =>
      if Nat.eqb i j then A_session j :: without_others i sch'
      else without_others i sch'
  | a :: sch' => a :: without_others i sch'
  end.

(** Two worlds that agree on everything but the sessions other than [i]. *)
Definition same_for_session (i : nat) (w1 w2 : world) : Prop :=
  same_producer w1 w2 /\
  length (sessions w1) = length (sessions w2) /\
  sessions w1 !! i = sessions w2 !! i.

(** What [cap.read()] raises when the device is gone. *)
Definition cv2_error : exn := Exn "cv2.error" true "device lost".

(** A device that gives one frame and then raises. *)
Definition read_once_then_raise (n : nat) : read_result :=
  if Nat.ltb n 1 then Read true (test_frame n) else ReadRaise cv2_error.

(** [one_turn], then a viewer connects and its session runs up to
    line 51. *)
Definition viewer_at_index : list action :=
  one_turn ++ [A_connect; A_session 0; A_session 0; A_session 0].

(** Lifespan starts the camera thread, which runs until its second read
    on [read_once_then_raise]: the opening, one turn, the loop test and
    the read. *)
Definition until_second_read : list action :=
  [A_startup StartOk; A_camera; A_camera; A_camera; A_camera; A_camera;
   A_camera; A_camera; A_camera].

(** The sleeps of a camera thread are as many as its publishes, but for
    the publish whose sleep is about to start, and each is the interval. *)
Definition paced (t : cam_thread) : Prop :=
  length (trace_published (trace t)) =
    length (trace_sleeps (trace t)) + match pc t with C_sleep => 1 | _ => 0 end /\
  Forall (fun q => q = inter_frame_interval) (trace_sleeps (trace t)).

(** * Properties *)

(** ** The buffer *)

Lemma publish_singleton (fb : list bytes) (f : bytes) : publish fb f = [f].
Proof.
  unfold publish, Deque.append, frame_buffer_maxlen.
  rewrite length_app; simpl.
  replace (length fb + 1 - 1) with (length fb) by lia.
  by rewrite drop_app_length.
Qed.

Lemma peek_last (fb : list bytes) : peek fb = last fb.
Proof. by destruct fb. Qed.

Lemma published_app (ops1 ops2 : list slot_op) :
  published (ops1 ++ ops2) = published ops1 ++ published ops2.
Proof.
  induction ops1 as [|[f|] ops1 IH]; simpl; by rewrite ?IH.
Qed.

Lemma slot_run_app (ops1 ops2 : list slot_op) (fb : list bytes) :
  slot_run (ops1 ++ ops2) fb =
  let '(rs1, fb1) := slot_run ops1 fb in
  let '(rs2, fb2) := slot_run ops2 fb1 in
  (rs1 ++ rs2, fb2).
Proof.
  revert fb; induction ops1 as [|[f|] ops1 IH]; intros fb; simpl.
  - by destruct (slot_run ops2 fb).
  - apply IH.
  - rewrite IH. destruct (slot_run ops1 fb) as [rs1 fb1].
    by destruct (slot_run ops2 fb1).
Qed.

(** After any operations the buffer holds the frame published last, or
    what it held before when none was published. *)
Lemma slot_run_buffer (ops : list slot_op) (fb : list bytes) :
  snd (slot_run ops fb) =
  match last (published ops) with Some f => [f] | None => fb end.
Proof.
  revert fb; induction ops as [|[f|] ops IH]; intros fb; simpl.
  - done.
  - rewrite IH, publish_singleton.
    destruct (published ops) as [|g gs] eqn:E; simpl; first done.
    by rewrite last_cons; destruct (last gs).
  - specialize (IH fb). destruct (slot_run ops fb); simpl in *. done.
Qed.

Lemma peek_after (ops : list slot_op) :
  peek (snd (slot_run ops frame_buffer_init)) = last (published ops).
Proof.
  rewrite slot_run_buffer. by destruct (last (published ops)).
Qed.

(** The result of the peek that follows [pre] sits in the result list
    behind the results of the peeks of [pre]. *)
Lemma slot_run_peek_at (pre post : list slot_op) (fb : list bytes) :
  fst (slot_run (pre ++ Peek :: post) fb) !! length (fst (slot_run pre fb))
  = Some (peek (snd (slot_run pre fb))).
Proof.
  rewrite slot_run_app. destruct (slot_run pre fb) as [rs1 fb1]; simpl.
  destruct (slot_run post fb1) as [rs2 fb2]; simpl.
  by rewrite list_lookup_middle.
Qed.

(** ** Traces *)

Lemma trace_published_app (tr1 tr2 : list cap_event) :
  trace_published (tr1 ++ tr2) = trace_published tr1 ++ trace_published tr2.
Proof.
  induction tr1 as [|[f|q|s] tr1 IH]; simpl; by rewrite ?IH.
Qed.

Lemma trace_sleeps_app (tr1 tr2 : list cap_event) :
  trace_sleeps (tr1 ++ tr2) = trace_sleeps tr1 ++ trace_sleeps tr2.
Proof.
  induction tr1 as [|[f|q|s] tr1 IH]; simpl; by rewrite ?IH.
Qed.

Lemma chunks_app (evs1 evs2 : list gen_event) :
  chunks (evs1 ++ evs2) = chunks evs1 ++ chunks evs2.
Proof.
  induction evs1 as [|[q|c] evs1 IH]; simpl; by rewrite ?IH.
Qed.

Lemma in_publish_order_nil (pubs : list bytes) : in_publish_order pubs [].
Proof. exists []. split; constructor. Qed.

Lemma in_publish_order_grow (pubs more cs : list bytes) :
  in_publish_order pubs cs -> in_publish_order (pubs ++ more) cs.
Proof.
  intros (idx & Hs & Hf). exists idx. split; first done.
  eapply Forall2_impl; first exact Hf.
  intros i c (f & Hi & ->). exists f. split; last done.
  by apply lookup_app_l_Some.
Qed.

Lemma in_publish_order_snoc (pubs cs : list bytes) (f : bytes) :
  last pubs = Some f ->
  in_publish_order pubs cs -> in_publish_order pubs (cs ++ [chunk f]).
Proof.
  intros Hl (idx & Hs & Hf). exists (idx ++ [pred (length pubs)]).
  assert (Hlast : pubs !! pred (length pubs) = Some f).
  { by rewrite <- last_lookup. }
  split.
  - apply StronglySorted_app_2; [|done|repeat constructor].
    intros i j Hi Hj. apply list_elem_of_singleton in Hj as ->.
    apply list_elem_of_lookup in Hi as [k Hk].
    destruct (Forall2_lookup_l _ _ _ _ _ Hf Hk) as (c & _ & g & Hg & _).
    apply lookup_lt_Some in Hg. lia.
  - apply Forall2_app; first done.
    constructor; last constructor. by exists f.
Qed.

(** ** Schedules *)

Section ServiceFacts.
Variable cam_open : open_result.
Variable cam_read : nat -> read_result.
Variable imencode : ndarray -> encode_result.

Local Abbreviation set_frames_step := (set_frames_step cam_open cam_read imencode).
Local Abbreviation set_frames_steps := (set_frames_steps cam_open cam_read imencode).
Local Abbreviation step := (step cam_open cam_read imencode).
Local Abbreviation run := (run cam_open cam_read imencode).

Lemma run_snoc (sch : list action) (a : action) (w : world) :
  run (sch ++ [a]) w = step a (run sch w).
Proof. unfold run. by rewrite fold_left_app. Qed.

Lemma run_app (sch1 sch2 : list action) (w : world) :
  run (sch1 ++ sch2) w = run sch2 (run sch1 w).
Proof. unfold run. by rewrite fold_left_app. Qed.

(** Induction over the worlds a schedule reaches from [w0]. *)
Lemma run_ind (P : world -> Prop) (w0 : world) :
  P w0 ->
  (forall w a, P w -> P (step a w)) ->
  forall sch, P (run sch w0).
Proof.
  intros H0 Hstep sch. induction sch as [|a sch IH] using rev_ind.
  - exact H0.
  - rewrite run_snoc. by apply Hstep.
Qed.

(** A statement of the camera thread either leaves the buffer and the
    published frames alone, or it is line 35. *)
Lemma set_frames_step_cases (stop : bool) (fb : list bytes) (t : cam_thread) :
  let '(fb', t') := set_frames_step stop fb t in
  (fb' = fb /\ trace_published (trace t') = trace_published (trace t)) \/
  (exists jpeg, pc t = C_append jpeg /\ fb' = [jpeg] /\
     trace t' = trace t ++ [EvPublish jpeg] /\ pc t' = C_sleep).
Proof.
  unfold set_frames_step, set_frames_except.
  destruct t as [p n tr]; simpl.
  repeat case_match; simplify_eq; simpl;
    rewrite ?trace_published_app, ?app_nil_r; auto.
  right. eexists. split; first done.
  split; last done. apply publish_singleton.
Qed.

Lemma buffer_is_latest_step (a : action) (w : world) :
  buffer_is_latest w -> buffer_is_latest (step a w).
Proof.
  unfold buffer_is_latest, cam_published. intros [H Hinit].
  destruct a as [r|r| | |i]; simpl.
  - unfold lifespan_startup.
    destruct (lifespan_pc w) eqn:E; [|split; [done|congruence]..].
    destruct r; simpl; [|split; [done|congruence]].
    rewrite Hinit in H by done. by split.
  - unfold lifespan_shutdown.
    destruct (lifespan_pc w) eqn:E; simpl; split; auto; congruence.
  - destruct (camera_thread w) as [t|] eqn:E; last by rewrite E.
    pose proof (set_frames_step_cases (stop_event w) (frame_buffer w) t) as Hc.
    destruct (set_frames_step _ _ t) as [fb' t']; simpl.
    split; last by (intros E'; specialize (Hinit E')).
    destruct Hc as [[-> ->]|(jpeg & _ & -> & -> & _)]; first done.
    rewrite trace_published_app; simpl. by rewrite last_snoc.
  - by split.
  - destruct (sessions w !! i); by split.
Qed.

Lemma buffer_is_latest_run (sch : list action) :
  buffer_is_latest (run sch initial_world).
Proof.
  apply run_ind; last by (intros; apply buffer_is_latest_step).
  by split.
Qed.

Lemma session_ok_grow (fb pubs : list bytes) (jpeg : bytes) (s : session) :
  session_ok fb pubs s -> session_ok [jpeg] (pubs ++ [jpeg]) s.
Proof.
  intros (Hf & _ & Ho). repeat split; [done..|].
  by apply in_publish_order_grow.
Qed.

Lemma get_frames_step_ok (fb pubs : list bytes) (s : session) :
  fb = match last pubs with Some f => [f] | None => [] end ->
  session_ok fb pubs s -> session_ok fb pubs (get_frames_step fb s).
Proof.
  intros Hfb (Hf & Hi & Ho). unfold get_frames_step.
  destruct (gpc s) eqn:E; simpl.
  - repeat split; simpl; try done. by rewrite chunks_app, app_nil_r.
  - repeat split; simpl; try done. by rewrite chunks_app, app_nil_r.
  - destruct (Deque.truthy fb) eqn:Et; repeat split; simpl; try done.
    by intros _ ->.
  - destruct (last pubs) as [f|] eqn:El; subst fb; last by destruct Hi.
    simpl. repeat split; simpl; try done.
    rewrite chunks_app; simpl. by apply in_publish_order_snoc.
  - by destruct (Hf e).
Qed.

Lemma world_ok_step (a : action) (w : world) :
  world_ok w -> world_ok (step a w).
Proof.
  intros [Hb Hs]. split; first by apply buffer_is_latest_step.
  destruct Hb as [Hb Hinit]. unfold sessions_ok, cam_published in *.
  destruct a as [r|r| | |i]; simpl.
  - unfold lifespan_startup. destruct (lifespan_pc w) eqn:E; try done.
    destruct r; simpl; last done. by rewrite Hinit in Hs.
  - unfold lifespan_shutdown. by destruct (lifespan_pc w).
  - destruct (camera_thread w) as [t|] eqn:E; last by rewrite E.
    pose proof (set_frames_step_cases (stop_event w) (frame_buffer w) t) as Hc.
    destruct (set_frames_step _ _ t) as [fb' t']; simpl.
    destruct Hc as [[-> ->]|(jpeg & _ & -> & -> & _)]; first done.
    rewrite trace_published_app; simpl.
    eapply Forall_impl; first exact Hs.
    intros s. apply session_ok_grow.
  - apply Forall_app. split; first done.
    constructor; last done.
    repeat split; simpl; try done. apply in_publish_order_nil.
  - destruct (sessions w !! i) as [s|] eqn:E; last done. simpl.
    apply Forall_insert; first done.
    apply get_frames_step_ok; first done.
    eapply Forall_lookup_1; eauto.
Qed.

Lemma world_ok_run (sch : list action) : world_ok (run sch initial_world).
Proof.
  apply run_ind; last by (intros; apply world_ok_step).
  split; [by split | constructor].
Qed.

(** ** The camera thread *)

(** What one statement of [set_frames] adds to the trace. *)
Lemma set_frames_step_trace (stop : bool) (fb : list bytes) (t : cam_thread) :
  let t' := snd (set_frames_step stop fb t) in
  (trace t' = trace t /\ pc t <> C_sleep /\ pc t' <> C_sleep) \/
  (exists jpeg, pc t = C_append jpeg /\
     trace t' = trace t ++ [EvPublish jpeg] /\ pc t' = C_sleep) \/
  (pc t = C_sleep /\
     trace t' = trace t ++ [EvSleep inter_frame_interval] /\ pc t' = C_head) \/
  (exists line, trace t' = trace t ++ [EvPrint line] /\
     pc t <> C_sleep /\ pc t' = C_done).
Proof.
  unfold set_frames_step, set_frames_except.
  destruct t as [p n tr]; simpl.
  repeat case_match; simplify_eq; simpl; eauto 10.
Qed.

(** A property of the camera thread that its creation establishes and
    every statement keeps holds in every world a schedule reaches. *)
Lemma camera_thread_ind (P : cam_thread -> Prop) :
  P (CamThread C_open 0 []) ->
  (forall stop fb t, P t -> P (snd (set_frames_step stop fb t))) ->
  forall sch t, camera_thread (run sch initial_world) = Some t -> P t.
Proof.
  intros H0 Hstep sch.
  apply (run_ind (fun w => forall t, camera_thread w = Some t -> P t));
    first done.
  intros w a IH t. destruct a as [r|r| | |i]; simpl.
  - unfold lifespan_startup. destruct (lifespan_pc w); auto.
    destruct r; simpl; auto. by intros [= <-].
  - unfold lifespan_shutdown. destruct (lifespan_pc w); auto.
  - destruct (camera_thread w) as [t0|] eqn:E; last by rewrite E.
    specialize (Hstep (stop_event w) (frame_buffer w) t0 (IH _ eq_refl)).
    destruct (set_frames_step _ _ t0) as [fb' t']; simpl in *.
    by intros [= <-].
  - auto.
  - destruct (sessions w !! i); auto.
Qed.

Lemma snoc_eq_middle {A} (l pre post : list A) (e x : A) :
  l ++ [e] = pre ++ x :: post ->
  (post = [] /\ x = e /\ l = pre) \/
  (exists post0, post = post0 ++ [e] /\ l = pre ++ x :: post0).
Proof.
  intros H. destruct post as [|y post _] using rev_ind.
  - left. apply app_inj_tail in H as [-> ->]. done.
  - right. exists post.
    replace (pre ++ x :: post ++ [y]) with ((pre ++ x :: post) ++ [y]) in H
      by (by rewrite <- app_assoc).
    apply app_inj_tail in H as [-> ->]. done.
Qed.

Lemma publish_then_sleep_step (stop : bool) (fb : list bytes) (t : cam_thread) :
  publish_then_sleep t -> publish_then_sleep (snd (set_frames_step stop fb t)).
Proof.
  intros IH pre f post H.
  destruct (set_frames_step_trace stop fb t)
    as [(Ht & Hp & Hp')|[(j & Hp & Ht & Hp')|[(Hp & Ht & Hp')|(l & Ht & Hp & Hp')]]];
    rewrite Ht in H.
  - destruct (IH _ _ _ H) as [[_ ?]|?]; [done | by right].
  - apply snoc_eq_middle in H as [(-> & _ & _)|(post0 & -> & H)]; first by left.
    destruct (IH _ _ _ H) as [[_ ?]|[post' ->]]; first congruence.
    right. by eexists.
  - apply snoc_eq_middle in H as [(_ & ? & _)|(post0 & -> & H)]; first done.
    destruct (IH _ _ _ H) as [[-> _]|[post' ->]]; right; by eexists.
  - apply snoc_eq_middle in H as [(_ & ? & _)|(post0 & -> & H)]; first done.
    destruct (IH _ _ _ H) as [[_ ?]|[post' ->]]; first done.
    right. by eexists.
Qed.

Lemma sleep_after_publish_step (stop : bool) (fb : list bytes) (t : cam_thread) :
  sleep_after_publish t -> sleep_after_publish (snd (set_frames_step stop fb t)).
Proof.
  intros [Hs IH].
  destruct (set_frames_step_trace stop fb t)
    as [(Ht & Hp & Hp')|[(j & Hp & Ht & Hp')|[(Hp & Ht & Hp')|(l & Ht & Hp & Hp')]]];
    (split; [try done; try congruence | rewrite Ht; try done]).
  - intros _. rewrite Ht. by eexists _, _.
  - intros pre q post H.
    apply snoc_eq_middle in H as [(_ & ? & _)|(post0 & -> & H)]; first done.
    eauto.
  - intros pre q post H.
    apply snoc_eq_middle in H as [(-> & [= ->] & <-)|(post0 & -> & H)]; eauto.
  - intros pre q post H.
    apply snoc_eq_middle in H as [(_ & ? & _)|(post0 & -> & H)]; first done.
    eauto.
Qed.

(** ** [lifespan] and the stop event *)

Lemma lifespan_ok_step (a : action) (w : world) :
  lifespan_ok w -> lifespan_ok (step a w).
Proof.
  unfold lifespan_ok. intros H. destruct a as [r|r| | |i]; simpl.
  - unfold lifespan_startup. destruct (lifespan_pc w) eqn:E; rewrite ?E; try done.
    destruct H as (Hs & Ht & Hc). destruct r; simpl; rewrite Ht; simpl.
    + by repeat split.
    + split; first done. left. by eexists.
  - unfold lifespan_shutdown. destruct (lifespan_pc w) eqn:E; rewrite ?E; try done.
    destruct H as (Hs & Ht & Hc). simpl. rewrite Ht; simpl.
    split; first done. right. destruct r; eexists; repeat split; eauto.
  - destruct (camera_thread w) as [t|] eqn:Ec; last by rewrite Ec.
    destruct (set_frames_step _ _ t) as [fb' t']; simpl.
    destruct (lifespan_pc w).
    + by destruct H as (_ & _ & ?).
    + destruct H as (? & ? & ?). by repeat split.
    + destruct H as (? & [(e & ? & ?)|(l & ? & ? & ?)]); first done.
      split; first done. right. by exists l.
  - done.
  - by destruct (sessions w !! i).
Qed.

Lemma lifespan_ok_run (sch : list action) : lifespan_ok (run sch initial_world).
Proof.
  apply run_ind; last by (intros; apply lifespan_ok_step).
  by repeat split.
Qed.

Lemma stopped_step (a : action) (w : world) : stopped w -> stopped (step a w).
Proof.
  intros [Hs Hl]. unfold stopped.
  destruct a as [r|r| | |i]; simpl.
  - unfold lifespan_startup. by rewrite Hl.
  - unfold lifespan_shutdown. by rewrite Hl.
  - destruct (camera_thread w) as [t|]; last done.
    by destruct (set_frames_step _ _ t).
  - done.
  - by destruct (sessions w !! i).
Qed.

Lemma set_frames_step_stopped (fb : list bytes) (t : cam_thread) :
  let t' := snd (set_frames_step true fb t) in
  length (trace_published (trace t')) + publishes_left (pc t')
    <= length (trace_published (trace t)) + publishes_left (pc t) /\
  length (trace_sleeps (trace t')) + sleeps_left (pc t')
    <= length (trace_sleeps (trace t)) + sleeps_left (pc t) /\
  statements_left (pc t') <= pred (statements_left (pc t)).
Proof.
  unfold set_frames_step, set_frames_except.
  destruct t as [p n tr]; simpl.
  repeat case_match; simplify_eq; simpl;
    rewrite ?trace_published_app, ?trace_sleeps_app, ?length_app; simpl; lia.
Qed.

Lemma stopped_run (sch : list action) (w : world) :
  stopped w ->
  stopped (run sch w) /\
  match camera_thread w with
  | Some t =>
      exists t', camera_thread (run sch w) = Some t' /\
        length (trace_published (trace t')) + publishes_left (pc t')
          <= length (trace_published (trace t)) + publishes_left (pc t) /\
        length (trace_sleeps (trace t')) + sleeps_left (pc t')
          <= length (trace_sleeps (trace t)) + sleeps_left (pc t) /\
        statements_left (pc t') <= statements_left (pc t) - camera_steps sch
  | None => camera_thread (run sch w) = None
  end.
Proof.
  revert w. induction sch as [|a sch IH]; intros w Hw.
  - change (run [] w) with w. split; first done.
    destruct (camera_thread w) as [t|]; last done.
    exists t. simpl. repeat split; lia.
  - change (run (a :: sch) w) with (run sch (step a w)).
    destruct (IH _ (stopped_step a w Hw)) as [Hst IH']. split; first done.
    clear IH. destruct Hw as [Hs Hl].
    destruct a as [r|r| | |i]; simpl in *.
    + unfold lifespan_startup in *. rewrite Hl in *.
      destruct (camera_thread w); done.
    + unfold lifespan_shutdown in *. rewrite Hl in *.
      destruct (camera_thread w); done.
    + destruct (camera_thread w) as [t|] eqn:E; last by rewrite E in IH'.
      rewrite Hs in IH' |- *.
      pose proof (set_frames_step_stopped (frame_buffer w) t) as (Hp & Hz & Hn).
      destruct (set_frames_step true _ t) as [fb1 t1]; simpl in *.
      destruct IH' as (t' & Ht' & Hp' & Hz' & Hn'). exists t'.
      repeat split; [done | lia..].
    + destruct (camera_thread w); done.
    + destruct (sessions w !! i); destruct (camera_thread w); done.
Qed.

(** ** The camera thread on its own *)

Lemma set_frames_steps_add (n m : nat) (stop : bool) (fb : list bytes)
    (t : cam_thread) :
  set_frames_steps (n + m) stop fb t =
  let '(fb', t') := set_frames_steps n stop fb t in
  set_frames_steps m stop fb' t'.
Proof.
  revert fb t. induction n as [|n IH]; intros fb t; simpl.
  - done.
  - destruct (set_frames_step stop fb t) as [fb1 t1]. apply IH.
Qed.

(** A schedule of camera statements only is the thread on its own. *)
Lemma run_camera_only (n : nat) (w : world) (t : cam_thread) :
  camera_thread w = Some t ->
  run (repeat A_camera n) w =
  let '(fb', t') := set_frames_steps n (stop_event w) (frame_buffer w) t in
  World fb' (stop_event w) (lifespan_pc w) (lifespan_trace w) (Some t')
    (sessions w).
Proof.
  revert w t. induction n as [|n IH]; intros w t E; simpl.
  - destruct w; simpl in *. by rewrite E.
  - change (run (A_camera :: repeat A_camera n) w)
      with (run (repeat A_camera n) (step A_camera w)).
    simpl. rewrite E.
    destruct (set_frames_step (stop_event w) (frame_buffer w) t) as [fb1 t1].
    by rewrite (IH _ t1).
Qed.

(** A device that opens, with reads and encodings that may fail but do
    not raise, and a stop event that is not set: the loop never
    returns. *)
Section NoRaise.
Hypothesis opened : cam_open = IsOpened true.
Hypothesis read_total : forall n, exists ret frame, cam_read n = Read ret frame.
Hypothesis encode_total :
  forall frame, exists ret jpeg, imencode frame = Encoded ret jpeg.

Lemma set_frames_step_alive (fb : list bytes) (t : cam_thread) :
  pc t <> C_done -> pc (snd (set_frames_step false fb t)) <> C_done.
Proof.
  unfold set_frames_step. destruct t as [p n tr]; simpl.
  destruct p; simpl; try done.
  - by rewrite opened.
  - destruct (read_total n) as (ret & frame & ->). by destruct ret.
  - destruct (encode_total frame) as (ret & jpeg & ->). by destruct ret.
Qed.

Lemma set_frames_steps_alive (n : nat) (fb : list bytes) (t : cam_thread) :
  pc t <> C_done -> pc (snd (set_frames_steps n false fb t)) <> C_done.
Proof.
  revert fb t. induction n as [|n IH]; intros fb t H; simpl; first done.
  pose proof (set_frames_step_alive fb t H) as H1.
  destruct (set_frames_step false fb t) as [fb1 t1]. by apply IH.
Qed.
End NoRaise.
End ServiceFacts.

(** ** Devices and encoders to run the model on *)

(** * The claims *)

Lemma published_In (ops : list slot_op) (f : bytes) :
  f ∈ published ops -> In (Publish f) ops.
Proof.
  induction ops as [|[g|] ops IH]; simpl.
  - by intros ?%elem_of_nil.
  - intros [->|H]%elem_of_cons; auto.
  - auto.
Qed.

(** Chunks in publication order are chunks of published frames. *)
Lemma in_publish_order_elem (pubs cs : list bytes) :
  in_publish_order pubs cs ->
  Forall (fun c => exists f, c = chunk f /\ f ∈ pubs) cs.
Proof.
  intros (idx & _ & Hf). induction Hf as [|i c idx cs (f & Hi & ->) _ IH].
  - constructor.
  - constructor; last done. exists f. split; first done.
    by eapply list_elem_of_lookup_2.
Qed.

(** C1.  A peek on the fresh buffer returns empty.  In every sequence of
    publishes and peeks on the fresh buffer, every peek returns empty or
    exactly one frame that a publish earlier in the sequence was given.
    The same holds of the running service, the statements of the camera
    thread and of the sessions interleaved in any way: no session ever
    raises (line 51 never finds the buffer empty), and every chunk a
    session has yielded frames one frame that the camera thread
    published. *)
Theorem peek_empty_or_one_published_frame :
  fst (slot_run [Peek] frame_buffer_init) = [None] /\
  (forall pre post : list slot_op,
     let r := peek (snd (slot_run pre frame_buffer_init)) in
     fst (slot_run (pre ++ Peek :: post) frame_buffer_init)
       !! length (fst (slot_run pre frame_buffer_init)) = Some r /\
     (r = None \/ exists f, r = Some f /\ In (Publish f) pre)) /\
  (forall cam_open cam_read imencode (sch : list action),
     let w := run cam_open cam_read imencode sch initial_world in
     Forall (fun s =>
               (forall e, gpc s <> G_fault e) /\
               Forall (fun c => exists f, c = chunk f /\ f ∈ cam_published w)
                 (chunks (out s)))
       (sessions w)).
Proof.
  split; first done. split.
  - intros pre post r. split; first apply slot_run_peek_at.
    subst r. rewrite peek_after.
    destruct (last (published pre)) as [f|] eqn:E; last by left.
    right. exists f. split; first done.
    by apply published_In, last_Some_elem_of.
  - intros cam_open cam_read imencode sch w.
    destruct (world_ok_run cam_open cam_read imencode sch) as [_ Hs].
    eapply Forall_impl; first exact Hs.
    intros s (Hf & _ & Ho). split; first done.
    by apply in_publish_order_elem.
Qed.

(** After [F2] a peek returns the frame published last, [F2] or later. *)
Lemma peek_after_later_publish (pre mid post : list slot_op) (F1 F2 : bytes) :
  peek (snd (slot_run (pre ++ Publish F1 :: mid ++ Publish F2 :: post)
               frame_buffer_init))
  = Some (default F2 (last (published post))).
Proof.
  rewrite peek_after.
  rewrite published_app; simpl. rewrite published_app; simpl.
  rewrite last_app_cons, app_comm_cons, last_app_cons, last_cons.
  by destruct (last (published post)).
Qed.

(** C2.  Frames are told apart by their publication, a later frame with
    the same bytes being a later frame.  After [F2] has been published
    after [F1], a peek returns the frame published last since, [F2]
    included: never one published before [F2]; so it does not return
    the bytes of [F1], unless [F2] or a later frame has the same bytes.
    In the running service the chunks a session has yielded follow the
    order in which the camera thread published their frames: a frame may
    come again, one published earlier than a frame already yielded does
    not. *)
Theorem peek_never_goes_back :
  (forall (pre mid post : list slot_op) (F1 F2 : bytes),
     peek (snd (slot_run (pre ++ Publish F1 :: mid ++ Publish F2 :: post)
                  frame_buffer_init))
     = Some (default F2 (last (published post)))) /\
  (forall (pre mid post : list slot_op) (F1 F2 : bytes),
     ~ In F1 (F2 :: published post) ->
     peek (snd (slot_run (pre ++ Publish F1 :: mid ++ Publish F2 :: post)
                  frame_buffer_init))
     <> Some F1) /\
  (forall cam_open cam_read imencode (sch : list action),
     let w := run cam_open cam_read imencode sch initial_world in
     Forall (fun s => in_publish_order (cam_published w) (chunks (out s)))
       (sessions w)).
Proof.
  split; [|split].
  - apply peek_after_later_publish.
  - intros pre mid post F1 F2 Hnew. rewrite peek_after_later_publish.
    intros [= H]. apply Hnew.
    destruct (last (published post)) as [f|] eqn:E; simpl in H; subst.
    + right. by apply list_elem_of_In, last_Some_elem_of.
    + by left.
  - intros cam_open cam_read imencode sch w.
    destruct (world_ok_run cam_open cam_read imencode sch) as [_ Hs].
    eapply Forall_impl; first exact Hs.
    by intros s (_ & _ & Ho).
Qed.

(** C3.  A chunk is the boundary marker, the Content-Type line, an empty
    line, the frame and a line break; line 51-52 yields this chunk of the
    last item of the buffer, whenever the buffer has one; the chunk of
    [b"JPEGDATA"] is the 47 bytes
    [--frame\r\nContent-Type: image/jpeg\r\n\r\nJPEGDATA\r\n]. *)
Theorem chunk_is_multipart_framing :
  (forall jpeg : bytes,
     chunk jpeg =
     b "--frame" ++ CRLF ++ b "Content-Type: image/jpeg" ++ CRLF ++
     CRLF ++ jpeg ++ CRLF) /\
  (forall (fb : list bytes) (jpeg : bytes) (evs : list gen_event),
     get_frames_step (fb ++ [jpeg]) (Session G_index evs) =
     Session G_yield (evs ++ [GYield (chunk jpeg)])) /\
  chunk (b "JPEGDATA") =
    [ "-"; "-"; "f"; "r"; "a"; "m"; "e"; x0d; x0a;
      "C"; "o"; "n"; "t"; "e"; "n"; "t"; "-"; "T"; "y"; "p"; "e"; ":"; " ";
      "i"; "m"; "a"; "g"; "e"; "/"; "j"; "p"; "e"; "g"; x0d; x0a;
      x0d; x0a;
      "J"; "P"; "E"; "G"; "D"; "A"; "T"; "A";
      x0d; x0a ]%byte.
Proof.
  split; [|split].
  - intros jpeg. unfold chunk, chunk_head. by rewrite <- !app_assoc.
  - intros fb jpeg evs. unfold get_frames_step, Deque.getitem_last; simpl.
    by rewrite last_snoc.
  - reflexivity.
Qed.

(** ** Readers do not disturb the buffer or the camera thread *)

Section ReaderFacts.
Variable cam_open : open_result.
Variable cam_read : nat -> read_result.
Variable imencode : ndarray -> encode_result.

Local Abbreviation step := (step cam_open cam_read imencode).
Local Abbreviation run := (run cam_open cam_read imencode).

Lemma yields_frame_of_refl (fb : list bytes) (s : session) :
  yields_frame_of fb s s.
Proof.
  exists 0. unfold peek_chunks. destruct (peek fb); simpl; by rewrite app_nil_r.
Qed.

Lemma yields_frame_of_trans (fb : list bytes) (s1 s2 s3 : session) :
  yields_frame_of fb s1 s2 -> yields_frame_of fb s2 s3 ->
  yields_frame_of fb s1 s3.
Proof.
  intros [k1 H1] [k2 H2]. exists (k1 + k2). rewrite H2, H1, <- app_assoc.
  f_equal. unfold peek_chunks. destruct (peek fb); last done.
  by rewrite repeat_app.
Qed.

Lemma get_frames_step_yields (fb : list bytes) (s : session) :
  yields_frame_of fb s (get_frames_step fb s).
Proof.
  assert (Hsame : forall s', chunks (out s') = chunks (out s) ->
                             yields_frame_of fb s s').
  { intros s' H. exists 0. rewrite H. unfold peek_chunks.
    destruct (peek fb); simpl; by rewrite app_nil_r. }
  unfold get_frames_step. destruct (gpc s) eqn:E; simpl.
  - apply Hsame; simpl. by rewrite chunks_app, app_nil_r.
  - apply Hsame; simpl. by rewrite chunks_app, app_nil_r.
  - destruct (Deque.truthy fb); by apply Hsame.
  - unfold Deque.getitem_last. destruct (last fb) as [f|] eqn:El.
    + exists 1. unfold peek_chunks. simpl. by rewrite peek_last, El, chunks_app.
    + by apply Hsame.
  - by apply Hsame.
Qed.

(** Statements of sessions only: the buffer, the stop event, lifespan
    and the camera thread stay as they are, and every session yields
    chunks of one and the same frame, the one in the buffer. *)
Lemma run_sessions_only (ids : list nat) (w : world) :
  let w' := run (A_session <$> ids) w in
  same_producer w' w /\
  Forall2 (yields_frame_of (frame_buffer w)) (sessions w) (sessions w').
Proof.
  induction ids as [|i ids IH] using rev_ind; simpl.
  - split; first done. apply Forall_Forall2_diag, Forall_forall.
    intros s _. apply yields_frame_of_refl.
  - rewrite fmap_app; simpl. rewrite run_snoc.
    destruct IH as [(Hb & Hs & Hp & Ht & Hc) IH].
    set (w1 := run (A_session <$> ids) w) in *. simpl.
    destruct (sessions w1 !! i) as [s1|] eqn:E; last done. simpl.
    split; first done.
    apply Forall2_same_length_lookup. split.
    + rewrite length_insert. by eapply Forall2_length.
    + intros j s s' Hj Hj'. destruct (decide (i = j)) as [->|Hne].
      * rewrite list_lookup_insert_eq in Hj' by (by eapply lookup_lt_Some).
        injection Hj' as <-.
        eapply yields_frame_of_trans; last (rewrite Hb; apply get_frames_step_yields).
        eapply Forall2_lookup_lr; eauto.
      * rewrite list_lookup_insert_ne in Hj' by done.
        eapply Forall2_lookup_lr; eauto.
Qed.

Lemma same_producer_step (a : action) (w1 w2 : world) :
  same_producer w1 w2 ->
  match a with
  | A_connect | A_session _ => same_producer (step a w1) w2
  | _ => same_producer (step a w1) (step a w2)
  end.
Proof.
  intros (Hb & Hs & Hp & Ht & Hc). unfold same_producer.
  destruct a as [r|r| | |i]; simpl.
  - unfold lifespan_startup. rewrite Hp.
    destruct (lifespan_pc w2) eqn:E; [|repeat split; congruence..].
    destruct r; simpl; repeat split; congruence.
  - unfold lifespan_shutdown. rewrite Hp.
    destruct (lifespan_pc w2) eqn:E; simpl; repeat split; congruence.
  - rewrite Hc, Hb, Hs. destruct (camera_thread w2) as [t|] eqn:E.
    + destruct (set_frames_step _ _ _ _ _ t); simpl. repeat split; congruence.
    + repeat split; congruence.
  - done.
  - destruct (sessions w1 !! i); done.
Qed.

(** The buffer, the stop event, lifespan and the camera thread after a
    schedule are what they are after the schedule without its session
    statements. *)
Lemma producer_unaffected (sch : list action) (w1 w2 : world) :
  same_producer w1 w2 ->
  same_producer (run sch w1) (run (producer_side sch) w2).
Proof.
  revert w1 w2. induction sch as [|a sch IH]; intros w1 w2 H; first done.
  pose proof (same_producer_step a w1 w2 H) as Ha.
  change (run (a :: sch) w1) with (run sch (step a w1)).
  destruct a; simpl producer_side;
    try change (run (?a :: ?l) w2) with (run l (step a w2)); by apply IH.
Qed.
End ReaderFacts.

(** ** Runs of the camera thread on the test devices *)

Lemma read_two_of_three_0 (k : nat) :
  read_two_of_three (k * 3) = Read true (test_frame (k * 3)).
Proof.
  unfold read_two_of_three. by rewrite Nat.Div0.mod_mul.
Qed.

Lemma read_two_of_three_1 (k : nat) :
  read_two_of_three (S (k * 3)) = Read true (test_frame (S (k * 3))).
Proof.
  unfold read_two_of_three.
  replace (S (k * 3) mod 3) with 1; first done.
  change (S (k * 3)) with (1 + k * 3). by rewrite Nat.Div0.mod_add.
Qed.

Lemma read_two_of_three_2 (k : nat) :
  read_two_of_three (S (S (k * 3))) = Read false (test_frame (S (S (k * 3)))).
Proof.
  unfold read_two_of_three.
  replace (S (S (k * 3)) mod 3) with 2; first done.
  change (S (S (k * 3))) with (2 + k * 3). by rewrite Nat.Div0.mod_add.
Qed.

Ltac camera_turn :=
  cbn [set_frames_steps set_frames_step pc reads trace encode_always
       read_never encode_never read_always].

Lemma three_turns_run (k : nat) (fb : list bytes) (tr : list cap_event) :
  set_frames_steps (IsOpened true) read_two_of_three encode_always 12 false fb
    (CamThread C_head (k * 3) tr)
  = ([b "JPEG" ++ test_frame (S (k * 3))],
     CamThread C_head (S k * 3) (tr ++ three_turns k)).
Proof.
  camera_turn. rewrite read_two_of_three_0.
  camera_turn. rewrite read_two_of_three_1.
  camera_turn. rewrite read_two_of_three_2.
  camera_turn. unfold three_turns. rewrite <- !app_assoc. simpl.
  f_equal. apply publish_singleton.
Qed.

Lemma two_of_three_run (n : nat) (fb : list bytes) :
  snd (set_frames_steps (IsOpened true) read_two_of_three encode_always
         (1 + 12 * n) false fb (CamThread C_open 0 []))
  = CamThread C_head (n * 3) (flat_map three_turns (seq 0 n)).
Proof.
  induction n as [|n IH]; first done.
  replace (1 + 12 * S n) with ((1 + 12 * n) + 12) by lia.
  rewrite set_frames_steps_add.
  destruct (set_frames_steps _ _ _ (1 + 12 * n) false fb _) as [fb1 t1].
  simpl in IH. subst t1. rewrite three_turns_run. simpl snd.
  rewrite seq_S, flat_map_app, Nat.add_0_l. simpl. done.
Qed.

Lemma three_turns_published (n : nat) :
  length (trace_published (flat_map three_turns (seq 0 n))) = 2 * n /\
  length (trace_sleeps (flat_map three_turns (seq 0 n))) = 2 * n.
Proof.
  induction n as [|n [IH1 IH2]]; first done.
  rewrite seq_S, flat_map_app, trace_published_app, trace_sleeps_app, !length_app.
  simpl. lia.
Qed.

(** Device outage: a turn of the loop is the test and the read. *)
Lemma read_outage_run (imencode : ndarray -> encode_result) (n : nat)
    (fb : list bytes) :
  set_frames_steps (IsOpened true) read_never imencode (1 + 2 * n) false fb
    (CamThread C_open 0 [])
  = (fb, CamThread C_head n []).
Proof.
  induction n as [|n IH]; first done.
  replace (1 + 2 * S n) with ((1 + 2 * n) + 2) by lia.
  by rewrite set_frames_steps_add, IH.
Qed.

(** Encoder outage: a turn is the test, the read and the encoding. *)
Lemma encode_outage_run (n : nat) (fb : list bytes) :
  set_frames_steps (IsOpened true) read_always encode_never (1 + 3 * n) false fb
    (CamThread C_open 0 [])
  = (fb, CamThread C_head n []).
Proof.
  induction n as [|n IH]; first done.
  replace (1 + 3 * S n) with ((1 + 3 * n) + 3) by lia.
  by rewrite set_frames_steps_add, IH.
Qed.

(** ** Failed reads and encodings *)

Lemma failed_read_skips cam_open cam_read imencode
    (stop : bool) (fb : list bytes) (n : nat) (tr : list cap_event)
    (frame : ndarray) :
  cam_read n = Read false frame ->
  set_frames_step cam_open cam_read imencode stop fb (CamThread C_read n tr)
  = (fb, CamThread C_head (S n) tr).
Proof. unfold set_frames_step; simpl. by intros ->. Qed.

Lemma failed_encode_skips cam_open cam_read imencode
    (stop : bool) (fb : list bytes) (n : nat) (tr : list cap_event)
    (frame : ndarray) (jpeg : bytes) :
  imencode frame = Encoded false jpeg ->
  set_frames_step cam_open cam_read imencode stop fb (CamThread (C_encode frame) n tr)
  = (fb, CamThread C_head n tr).
Proof. unfold set_frames_step; simpl. by intros ->. Qed.

(** A read and an encoding that succeed: three statements later the
    frame is in the buffer. *)
Lemma successful_turn_stores cam_open cam_read imencode
    (stop : bool) (fb : list bytes) (n : nat) (tr : list cap_event)
    (frame : ndarray) (jpeg : bytes) :
  cam_read n = Read true frame ->
  imencode frame = Encoded true jpeg ->
  set_frames_steps cam_open cam_read imencode 3 stop fb (CamThread C_read n tr)
  = ([jpeg], CamThread C_sleep (S n) (tr ++ [EvPublish jpeg])).
Proof.
  intros Hr He.
  cbn [set_frames_steps set_frames_step pc reads trace]. rewrite Hr.
  cbn [set_frames_steps set_frames_step pc reads trace]. rewrite He.
  cbn [set_frames_steps set_frames_step pc reads trace].
  f_equal. apply publish_singleton.
Qed.

(** The buffer after the turns on [read_two_of_three]: the frame of the
    last read that succeeded. *)
Lemma two_of_three_slot (n : nat) (fb : list bytes) :
  fst (set_frames_steps (IsOpened true) read_two_of_three encode_always
         (1 + 12 * n) false fb (CamThread C_open 0 []))
  = match n with
    | O => fb
    | S k => [b "JPEG" ++ test_frame (S (k * 3))]
    end.
Proof.
  destruct n as [|k]; first done.
  replace (1 + 12 * S k) with ((1 + 12 * k) + 12) by lia.
  rewrite set_frames_steps_add.
  pose proof (two_of_three_run k fb) as H.
  destruct (set_frames_steps _ _ _ (1 + 12 * k) false fb _) as [fb1 t1].
  simpl in H. subst t1. by rewrite three_turns_run.
Qed.

(** The service on [read_two_of_three]: lifespan starts the camera
    thread, which runs [1 + 12 * n] statements. *)
Lemma two_of_three_service (n : nat) :
  run (IsOpened true) read_two_of_three encode_always
    (A_startup StartOk :: repeat A_camera (1 + 12 * n)) initial_world
  = World
      (match n with
       | O => []
       | S k => [b "JPEG" ++ test_frame (S (k * 3))]
       end)
      false LS_running [LsThreadStart]
      (Some (CamThread C_head (n * 3) (flat_map three_turns (seq 0 n)))) [].
Proof.
  change (run ?o ?r ?e (?a :: ?l) initial_world)
    with (run o r e l (step o r e a initial_world)).
  rewrite (run_camera_only _ _ _ _ _ (CamThread C_open 0 [])) by done.
  pose proof (two_of_three_run n []) as Ht.
  pose proof (two_of_three_slot n []) as Hb.
  cbn [step lifespan_startup initial_world lifespan_pc frame_buffer stop_event
       lifespan_trace sessions camera_thread frame_buffer_init] in *.
  unfold frame_buffer_init.
  destruct (set_frames_steps _ _ _ (1 + 12 * n) false [] _) as [fb1 t1].
  simpl in Ht, Hb. subst. by destruct n.
Qed.

(** C4.  A read that fails, and an encoding that fails, leave the buffer
    and the trace as they are and take the thread back to the loop test.
    With a device that opens, reads and encodings that fail but do not
    raise, and the stop event not set, the loop never returns.  On the
    device whose every third read fails the thread is at the loop test
    after [1 + 12 * n] statements, for every [n]: it has read [3 * n]
    times and published [2 * n] frames, two for every three reads, and
    the buffer holds the frame of the last read that succeeded.  So it is
    in the service that lifespan has started: the buffer holds that
    frame, which a peek returns.  A read and an encoding that succeed
    put the encoded frame into the buffer, whatever failed before. *)
Theorem failed_capture_or_encode_is_skipped :
  (forall cam_open cam_read imencode stop fb n tr frame,
     cam_read n = Read false frame ->
     set_frames_step cam_open cam_read imencode stop fb (CamThread C_read n tr)
     = (fb, CamThread C_head (S n) tr)) /\
  (forall cam_open cam_read imencode stop fb n tr frame jpeg,
     imencode frame = Encoded false jpeg ->
     set_frames_step cam_open cam_read imencode stop fb
       (CamThread (C_encode frame) n tr)
     = (fb, CamThread C_head n tr)) /\
  (forall cam_read imencode,
     (forall n, exists ret frame, cam_read n = Read ret frame) ->
     (forall frame, exists ret jpeg, imencode frame = Encoded ret jpeg) ->
     forall n fb,
       pc (snd (set_frames_steps (IsOpened true) cam_read imencode n false fb
                  (CamThread C_open 0 []))) <> C_done) /\
  (forall n fb,
     let t := snd (set_frames_steps (IsOpened true) read_two_of_three
                     encode_always (1 + 12 * n) false fb (CamThread C_open 0 [])) in
     pc t = C_head /\ reads t = 3 * n /\
     trace t = flat_map three_turns (seq 0 n) /\
     length (trace_published (trace t)) = 2 * n) /\
  (forall n fb,
     fst (set_frames_steps (IsOpened true) read_two_of_three
            encode_always (1 + 12 * n) false fb (CamThread C_open 0 []))
     = match n with
       | O => fb
       | S k => [b "JPEG" ++ test_frame (S (k * 3))]
       end) /\
  (forall n,
     let w := run (IsOpened true) read_two_of_three encode_always
                (A_startup StartOk :: repeat A_camera (1 + 12 * n))
                initial_world in
     frame_buffer w =
       match n with
       | O => []
       | S k => [b "JPEG" ++ test_frame (S (k * 3))]
       end /\
     peek (frame_buffer w) = last (cam_published w) /\
     length (cam_published w) = 2 * n /\
     camera_thread w =
       Some (CamThread C_head (3 * n) (flat_map three_turns (seq 0 n)))) /\
  (forall cam_open cam_read imencode stop fb n tr frame jpeg,
     cam_read n = Read true frame ->
     imencode frame = Encoded true jpeg ->
     set_frames_steps cam_open cam_read imencode 3 stop fb (CamThread C_read n tr)
     = ([jpeg], CamThread C_sleep (S n) (tr ++ [EvPublish jpeg]))).
Proof.
  split; [|split; [|split; [|split; [|split; [|split]]]]].
  - intros. by eapply failed_read_skips.
  - intros. by eapply failed_encode_skips.
  - intros cam_read imencode Hr He n fb.
    by apply set_frames_steps_alive.
  - intros n fb t. subst t. rewrite two_of_three_run; simpl.
    repeat split; [lia | apply three_turns_published].
  - apply two_of_three_slot.
  - intros n w.
    pose proof (buffer_is_latest_run (IsOpened true) read_two_of_three
                  encode_always
                  (A_startup StartOk :: repeat A_camera (1 + 12 * n))) as [Hl _].
    fold w in Hl.
    assert (Hp : peek (frame_buffer w) = last (cam_published w)).
    { rewrite Hl. by destruct (last (cam_published w)). }
    clear Hl. subst w. rewrite two_of_three_service in *.
    unfold cam_published; simpl.
    split; [done|split; [exact Hp|split; [apply three_turns_published|]]].
    do 2 f_equal. lia.
  - intros. by eapply successful_turn_stores.
Qed.

(** C5.  When the device does not open, the first statement of the
    camera thread prints the line and returns.  Then, whatever runs and
    for how long: nothing is published, the buffer is empty and a peek
    returns empty, no session has yielded a chunk or raised, the camera
    thread has printed the one line at most; and the statement of the
    camera thread leaves lifespan and the sessions as they are. *)
Theorem unopened_camera_publishes_nothing :
  (forall cam_read imencode stop fb,
     set_frames_step (IsOpened false) cam_read imencode stop fb
       (CamThread C_open 0 [])
     = (fb, CamThread C_done 0 [EvPrint "Cannot open camera"])) /\
  (forall cam_read imencode (sch : list action),
     let w := run (IsOpened false) cam_read imencode sch initial_world in
     cam_published w = [] /\
     frame_buffer w = [] /\
     peek (frame_buffer w) = None /\
     Forall (fun s => chunks (out s) = [] /\ forall e, gpc s <> G_fault e)
       (sessions w) /\
     match camera_thread w with
     | Some t =>
         t = CamThread C_open 0 [] \/
         t = CamThread C_done 0 [EvPrint "Cannot open camera"]
     | None => True
     end) /\
  (forall cam_open cam_read imencode (w : world),
     let w' := step cam_open cam_read imencode A_camera w in
     lifespan_pc w' = lifespan_pc w /\
     lifespan_trace w' = lifespan_trace w /\
     sessions w' = sessions w).
Proof.
  split; [done|split].
  - intros cam_read imencode sch w.
    assert (Hc : match camera_thread w with
                 | Some t =>
                     t = CamThread C_open 0 [] \/
                     t = CamThread C_done 0 [EvPrint "Cannot open camera"]
                 | None => True
                 end).
    { destruct (camera_thread w) as [t|] eqn:E; last done.
      revert E. subst w. revert t. apply camera_thread_ind; first by left.
      intros stop fb t [->| ->]; by right. }
    assert (Hp : cam_published w = []).
    { unfold cam_published. destruct (camera_thread w) as [t|]; last done.
      by destruct Hc as [->| ->]. }
    destruct (world_ok_run (IsOpened false) cam_read imencode sch) as [[Hb _] Hs].
    unfold sessions_ok in Hs. fold w in Hb, Hs. rewrite Hp in Hb, Hs. simpl in Hb.
    repeat split; [done | done | by rewrite Hb | | done].
    eapply Forall_impl; first exact Hs.
    intros s (Hf & _ & idx & _ & Ho). split; last done.
    destruct Ho as [|i c idx cs (f & Hi & _) _]; first done.
    by rewrite lookup_nil in Hi.
  - intros cam_open cam_read imencode w; simpl.
    destruct (camera_thread w) as [t|]; last done.
    by destruct (set_frames_step _ _ _ _ _ t).
Qed.

(** C6.  With the stop event set, the loop test returns from
    [set_frames], printing nothing; no other statement of the thread
    looks at the stop event.  Once the stop event is set in a world the
    service has reached, it stays set, and whatever runs afterwards the
    camera thread publishes at most one more frame, sleeps at most once
    more, and has returned after five statements of its own. *)
Theorem stop_ends_the_loop :
  (forall cam_open cam_read imencode fb n tr,
     set_frames_step cam_open cam_read imencode true fb (CamThread C_head n tr)
     = (fb, CamThread C_done n tr)) /\
  (forall cam_open cam_read imencode fb t,
     pc t <> C_head ->
     set_frames_step cam_open cam_read imencode true fb t
     = set_frames_step cam_open cam_read imencode false fb t) /\
  (forall cam_open cam_read imencode (sch0 sch : list action),
     let w := run cam_open cam_read imencode sch0 initial_world in
     let w' := run cam_open cam_read imencode sch w in
     stop_event w = true ->
     stop_event w' = true /\
     length (cam_published w') <= length (cam_published w) + 1 /\
     length (cam_sleeps w') <= length (cam_sleeps w) + 1 /\
     (5 <= camera_steps sch ->
      match camera_thread w' with
      | Some t => pc t = C_done
      | None => True
      end)).
Proof.
  split; [done|split].
  - intros cam_open cam_read imencode fb [p n tr] Hp.
    unfold set_frames_step; simpl in *. by destruct p.
  - intros cam_open cam_read imencode sch0 sch w w' Hstop.
    assert (Hw : stopped w).
    { split; first done.
      pose proof (lifespan_ok_run cam_open cam_read imencode sch0) as Hl.
      fold w in Hl. unfold lifespan_ok in Hl.
      destruct (lifespan_pc w); [|  |done]; destruct Hl as [? _]; congruence. }
    destruct (stopped_run cam_open cam_read imencode sch w Hw) as [[Hs _] Hc].
    fold w' in Hs, Hc. split; first done.
    unfold cam_published, cam_sleeps.
    destruct (camera_thread w) as [t|].
    + destruct Hc as (t' & -> & Hp & Hz & Hn).
      assert (publishes_left (pc t) <= 1) by (destruct (pc t); simpl; lia).
      assert (sleeps_left (pc t) <= 1) by (destruct (pc t); simpl; lia).
      assert (statements_left (pc t) <= 5) by (destruct (pc t); simpl; lia).
      repeat split; [lia | lia |].
      intros H5. destruct (pc t'); simpl in Hn; first [done | lia].
    + rewrite Hc. simpl. repeat split; lia || done.
Qed.

(** C7.  An exception while the camera thread is created or started
    leaves [lifespan] only after the stop event has been set; leaving
    [lifespan] from its [yield], by return or by an exception thrown in,
    sets the stop event, and does so with the camera thread wherever it
    is, without a statement of the thread being run.  In every world the
    service reaches: the stop event is set exactly when [lifespan] has
    been left; it was then set once, and the return or the exception came
    after it.  An [Exception] is passed on as an [Exception] with the
    same message.  [lifespan] can have been left with the camera thread
    still in its loop. *)
Theorem lifespan_sets_stop_on_every_exit :
  (forall (w : world) (e : exn),
     lifespan_pc w = LS_init ->
     let w' := lifespan_startup (StartRaise e) w in
     stop_event w' = true /\ lifespan_pc w' = LS_exited /\
     lifespan_trace w' =
       lifespan_trace w ++ [LsStopSet; LsRaise (lifespan_reraise e)] /\
     camera_thread w' = camera_thread w) /\
  (forall (w : world) (r : resume),
     lifespan_pc w = LS_running ->
     let w' := lifespan_shutdown r w in
     stop_event w' = true /\ lifespan_pc w' = LS_exited /\
     lifespan_trace w' =
       lifespan_trace w ++
       [LsStopSet;
        match r with
        | ResumeNormal => LsReturn
        | ResumeThrow e => LsRaise (lifespan_reraise e)
        end] /\
     camera_thread w' = camera_thread w /\
     frame_buffer w' = frame_buffer w) /\
  (forall cam_open cam_read imencode (sch : list action),
     let w := run cam_open cam_read imencode sch initial_world in
     (stop_event w = true <-> lifespan_pc w = LS_exited) /\
     (lifespan_pc w = LS_exited ->
      exists pre last,
        lifespan_trace w = pre ++ [LsStopSet; last] /\
        ~ In LsStopSet pre /\
        (last = LsReturn \/ exists e, last = LsRaise e))) /\
  (forall e : exn,
     exn_is_Exception e = true ->
     lifespan_reraise e = Exn "Exception" true (exn_str e)) /\
  (let w := run (IsOpened true) read_always encode_always
              [A_startup StartOk; A_camera; A_shutdown ResumeNormal]
              initial_world in
   lifespan_pc w = LS_exited /\ stop_event w = true /\
   camera_thread w = Some (CamThread C_head 0 [])).
Proof.
  split; [|split; [|split; [|split]]].
  - intros w e H w'. subst w'. unfold lifespan_startup. by rewrite H.
  - intros w r H w'. subst w'. unfold lifespan_shutdown. rewrite H; simpl.
    by destruct r.
  - intros cam_open cam_read imencode sch w.
    pose proof (lifespan_ok_run cam_open cam_read imencode sch) as Hl.
    fold w in Hl. unfold lifespan_ok in Hl.
    destruct (lifespan_pc w).
    + destruct Hl as (-> & _). by split.
    + destruct Hl as (-> & _). by split.
    + destruct Hl as (-> & Hl). split; first done. intros _.
      destruct Hl as [(e & -> & _)|(last & -> & Hlast & _)].
      * exists [], (LsRaise e). repeat split; [by intros [] | right; by exists e].
      * exists [LsThreadStart], last. repeat split; last done.
        by intros [?|[]].
  - intros e H. unfold lifespan_reraise. by rewrite H.
  - done.
Qed.

(** C8.  After a publish a peek returns the frame just published.  Any
    number of peeks in a row return the same result and leave the buffer
    as it was.  In the service, statements of sessions only, of however
    many sessions and in any order, leave the buffer as it is, and every
    chunk any of the sessions yields meanwhile is the chunk of the one
    frame in the buffer. *)
Theorem peek_is_repeatable :
  (forall (fb : list bytes) (f : bytes), peek (publish fb f) = Some f) /\
  (forall (fb : list bytes) (n : nat),
     slot_run (repeat Peek n) fb = (repeat (peek fb) n, fb)) /\
  (forall cam_open cam_read imencode (ids : list nat) (w : world),
     let w' := run cam_open cam_read imencode (A_session <$> ids) w in
     frame_buffer w' = frame_buffer w /\
     Forall2 (fun s s' =>
                exists k, chunks (out s') =
                          chunks (out s) ++ peek_chunks (frame_buffer w) k)
       (sessions w) (sessions w')).
Proof.
  split; [|split].
  - intros fb f. by rewrite publish_singleton.
  - intros fb n. induction n as [|n IH]; simpl; first done. by rewrite IH.
  - intros cam_open cam_read imencode ids w w'.
    destruct (run_sessions_only cam_open cam_read imencode ids w)
      as [(Hb & _) Hs].
    by split.
Qed.

(** C9.  The interval is 0.034 s, above 1/30 s by less than a
    millisecond.  Line 35 and line 36 run one after the other: the
    publish, then the sleep of the interval, then the loop test.  In
    every world the service reaches, every publish in the trace of the
    camera thread is followed at once by the sleep of the interval,
    unless it is the last event and the thread is about to sleep.  The
    buffer, the stop event, lifespan and the camera thread are the same
    with and without the connections and the statements of the sessions
    of a schedule. *)
Theorem publish_is_followed_by_sleep :
  (inter_frame_interval == 34 # 1000)%Q /\
  (1 # 30 < inter_frame_interval)%Q /\
  (inter_frame_interval - (1 # 30) < 1 # 1000)%Q /\
  (forall cam_open cam_read imencode stop stop' fb n tr jpeg,
     set_frames_step cam_open cam_read imencode stop fb
       (CamThread (C_append jpeg) n tr)
     = ([jpeg], CamThread C_sleep n (tr ++ [EvPublish jpeg])) /\
     set_frames_step cam_open cam_read imencode stop' [jpeg]
       (CamThread C_sleep n (tr ++ [EvPublish jpeg]))
     = ([jpeg], CamThread C_head n
                  (tr ++ [EvPublish jpeg; EvSleep inter_frame_interval]))) /\
  (forall cam_open cam_read imencode (sch : list action),
     match camera_thread (run cam_open cam_read imencode sch initial_world) with
     | Some t =>
         forall pre f post,
           trace t = pre ++ EvPublish f :: post ->
           (post = [] /\ pc t = C_sleep) \/
           (exists post', post = EvSleep inter_frame_interval :: post')
     | None => True
     end) /\
  (forall cam_open cam_read imencode (sch : list action),
     same_producer
       (run cam_open cam_read imencode sch initial_world)
       (run cam_open cam_read imencode (producer_side sch) initial_world)).
Proof.
  split; [done|split; [done|split; [done|split; [|split]]]].
  - intros. unfold set_frames_step; simpl. split.
    + f_equal. apply publish_singleton.
    + by rewrite <- app_assoc.
  - intros cam_open cam_read imencode sch.
    destruct (camera_thread _) as [t|] eqn:E; last done.
    apply (camera_thread_ind cam_open cam_read imencode publish_then_sleep)
      in E; first done.
    + intros pre f post H. by destruct pre.
    + apply publish_then_sleep_step.
  - intros. by apply producer_unaffected.
Qed.

(** C10.  In every world the service reaches, every sleep in the trace
    of the camera thread is the sleep of the interval and follows a
    publish at once.  A read that fails, and an encoding that fails, take
    the thread straight to the loop test, with no event.  In an outage of
    the device the thread goes round the loop once every two statements,
    in an outage of the encoder once every three, reading each time and
    never sleeping. *)
Theorem failed_turn_does_not_sleep :
  (forall cam_open cam_read imencode (sch : list action),
     match camera_thread (run cam_open cam_read imencode sch initial_world) with
     | Some t =>
         forall pre q post,
           trace t = pre ++ EvSleep q :: post ->
           q = inter_frame_interval /\
           exists pre' f, pre = pre' ++ [EvPublish f]
     | None => True
     end) /\
  (forall cam_open cam_read imencode stop fb n tr frame,
     cam_read n = Read false frame ->
     set_frames_step cam_open cam_read imencode stop fb (CamThread C_read n tr)
     = (fb, CamThread C_head (S n) tr)) /\
  (forall cam_open cam_read imencode stop fb n tr frame jpeg,
     imencode frame = Encoded false jpeg ->
     set_frames_step cam_open cam_read imencode stop fb
       (CamThread (C_encode frame) n tr)
     = (fb, CamThread C_head n tr)) /\
  (forall imencode n fb,
     set_frames_steps (IsOpened true) read_never imencode (1 + 2 * n) false fb
       (CamThread C_open 0 [])
     = (fb, CamThread C_head n [])) /\
  (forall n fb,
     set_frames_steps (IsOpened true) read_always encode_never (1 + 3 * n)
       false fb (CamThread C_open 0 [])
     = (fb, CamThread C_head n [])).
Proof.
  split; [|split; [|split; [|split]]].
  - intros cam_open cam_read imencode sch.
    destruct (camera_thread _) as [t|] eqn:E; last done.
    apply (camera_thread_ind cam_open cam_read imencode sleep_after_publish)
      in E as [_ H]; first done.
    + split; first done. intros pre q post H. by destruct pre.
    + apply sleep_after_publish_step.
  - intros. by eapply failed_read_skips.
  - intros. by eapply failed_encode_skips.
  - apply read_outage_run.
  - apply encode_outage_run.
Qed.

(** * The claims at concrete inputs *)

(** C2 at three frames: after "one" and "two" are published, peeks
    return "two" and then "three", not "one". *)
Lemma peek_never_goes_back_witness :
  ~ In (b "one") (b "two" :: published [Peek; Publish (b "three")]) /\
  fst (slot_run ([] ++ Publish (b "one") :: [Peek] ++ Publish (b "two")
                   :: [Peek; Publish (b "three"); Peek]) frame_buffer_init)
  = [Some (b "one"); Some (b "two"); Some (b "three")] /\
  peek (snd (slot_run ([] ++ Publish (b "one") :: [Peek] ++ Publish (b "two")
                         :: [Peek; Publish (b "three")]) frame_buffer_init))
  <> Some (b "one").
Proof.
  destruct peek_never_goes_back as (_ & Hnot & _).
  assert (Hnew : ~ In (b "one") (b "two" :: published [Peek; Publish (b "three")])).
  { simpl. intros [H|[H|[]]]; discriminate H. }
  split; [exact Hnew|split; [reflexivity|]].
  apply Hnot. exact Hnew.
Defined.

(** C4 at the device whose every third read fails: read number 2 fails
    and is skipped; with the encoder in an outage an encoding is skipped;
    the loop is alive after 100 statements; read number 3 succeeds and
    its frame is in the buffer three statements later. *)
Lemma failed_capture_or_encode_is_skipped_witness :
  read_two_of_three 2 = Read false (test_frame 2) /\
  set_frames_step (IsOpened true) read_two_of_three encode_always false
    [b "JPEG"] (CamThread C_read 2 [])
  = ([b "JPEG"], CamThread C_head 3 []) /\
  set_frames_step (IsOpened true) read_always encode_never false
    [] (CamThread (C_encode (test_frame 0)) 1 [])
  = ([], CamThread C_head 1 []) /\
  pc (snd (set_frames_steps (IsOpened true) read_two_of_three encode_always
             100 false [] (CamThread C_open 0 []))) <> C_done /\
  read_two_of_three 3 = Read true (test_frame 3) /\
  encode_always (test_frame 3) = Encoded true (b "JPEG" ++ test_frame 3) /\
  set_frames_steps (IsOpened true) read_two_of_three encode_always 3 false
    [b "JPEG"] (CamThread C_read 3 [])
  = ([b "JPEG" ++ test_frame 3],
     CamThread C_sleep 4 ([] ++ [EvPublish (b "JPEG" ++ test_frame 3)])).
Proof.
  destruct failed_capture_or_encode_is_skipped
    as (Hr & He & Ha & _ & _ & _ & Hok).
  split; [reflexivity|split; [|split; [|split]]].
  - apply (Hr _ _ _ _ _ _ _ (test_frame 2)). reflexivity.
  - apply (He _ _ _ _ _ _ _ _ []). reflexivity.
  - apply Ha.
    + intros n. eexists _, _. reflexivity.
    + intros frame. eexists _, _. reflexivity.
  - split; [reflexivity|split; [reflexivity|]].
    apply (Hok _ _ _ _ _ _ _ (test_frame 3)); reflexivity.
Defined.

(** C6 on a schedule that sets the stop event while the camera thread is
    about to encode: one more frame is published, and six statements
    later the thread has returned. *)
Lemma stop_ends_the_loop_witness :
  let w := run (IsOpened true) read_always encode_always
             [A_startup StartOk; A_camera; A_camera; A_camera;
              A_shutdown ResumeNormal] initial_world in
  let w' := run (IsOpened true) read_always encode_always
              [A_camera; A_connect; A_camera; A_session 0; A_camera;
               A_camera; A_camera; A_camera] w in
  stop_event w = true /\
  camera_thread w = Some (CamThread (C_encode (test_frame 0)) 1 []) /\
  stop_event w' = true /\
  length (cam_published w') <= length (cam_published w) + 1 /\
  length (cam_sleeps w') <= length (cam_sleeps w) + 1 /\
  camera_thread w' =
    Some (CamThread C_done 1
            [EvPublish (b "JPEG" ++ test_frame 0); EvSleep inter_frame_interval]) /\
  set_frames_step (IsOpened true) read_always encode_always true []
    (CamThread C_read 0 [])
  = set_frames_step (IsOpened true) read_always encode_always false []
      (CamThread C_read 0 []).
Proof.
  destruct stop_ends_the_loop as (_ & Hother & Hrun).
  intros w w'.
  destruct (Hrun (IsOpened true) read_always encode_always
              [A_startup StartOk; A_camera; A_camera; A_camera;
               A_shutdown ResumeNormal]
              [A_camera; A_connect; A_camera; A_session 0; A_camera;
               A_camera; A_camera; A_camera] eq_refl)
    as (Hs & Hp & Hz & _).
  split; [reflexivity|split; [reflexivity|]].
  split; [exact Hs|split; [exact Hp|split; [exact Hz|]]].
  split; [reflexivity|].
  apply Hother. discriminate.
Defined.

(** C7 at a start that raises [RuntimeError], at a shutdown by return and
    at a shutdown by an exception thrown in. *)
Lemma lifespan_sets_stop_on_every_exit_witness :
  lifespan_pc initial_world = LS_init /\
  (let w' := lifespan_startup (StartRaise RuntimeError) initial_world in
   stop_event w' = true /\ lifespan_pc w' = LS_exited /\
   lifespan_trace w' =
     [LsStopSet; LsRaise (Exn "Exception" true "can't start new thread")]) /\
  (let w := lifespan_startup StartOk initial_world in
   lifespan_pc w = LS_running /\
   let w' := lifespan_shutdown ResumeNormal w in
   stop_event w' = true /\
   lifespan_trace w' = [LsThreadStart; LsStopSet; LsReturn]) /\
  (let w := run (IsOpened true) read_always encode_always
              [A_startup StartOk; A_camera;
               A_shutdown (ResumeThrow RuntimeError)] initial_world in
   lifespan_pc w = LS_exited /\
   exists pre last,
     lifespan_trace w = pre ++ [LsStopSet; last] /\
     ~ In LsStopSet pre /\ (last = LsReturn \/ exists e, last = LsRaise e)) /\
  lifespan_reraise RuntimeError = Exn "Exception" true "can't start new thread".
Proof.
  destruct lifespan_sets_stop_on_every_exit as (Hstart & Hshut & Hreach & Hre & _).
  split; [reflexivity|split; [|split; [|split]]].
  - destruct (Hstart initial_world RuntimeError eq_refl) as (? & ? & ? & _).
    repeat split; assumption.
  - split; first reflexivity.
    destruct (Hshut (lifespan_startup StartOk initial_world) ResumeNormal eq_refl)
      as (? & _ & ? & _).
    split; assumption.
  - split; first reflexivity.
    apply (Hreach (IsOpened true) read_always encode_always
             [A_startup StartOk; A_camera; A_shutdown (ResumeThrow RuntimeError)]).
    reflexivity.
  - apply Hre. reflexivity.
Defined.

(** C9 on [one_turn]: the trace of the camera thread is the publish and
    the sleep. *)
Lemma publish_is_followed_by_sleep_witness :
  let w := run (IsOpened true) read_always encode_always one_turn initial_world in
  camera_thread w =
    Some (CamThread C_head 1
            ([] ++ EvPublish (b "JPEG" ++ test_frame 0)
                :: [EvSleep inter_frame_interval])) /\
  (([EvSleep inter_frame_interval] = [] /\ C_head = C_sleep) \/
   exists post', [EvSleep inter_frame_interval]
                 = EvSleep inter_frame_interval :: post').
Proof.
  destruct publish_is_followed_by_sleep as (_ & _ & _ & _ & Htrace & _).
  split; first reflexivity.
  apply (Htrace (IsOpened true) read_always encode_always one_turn
           [] (b "JPEG" ++ test_frame 0) [EvSleep inter_frame_interval]).
  reflexivity.
Defined.

(** C10 on [one_turn], and at a read of the device in an outage. *)
Lemma failed_turn_does_not_sleep_witness :
  let w := run (IsOpened true) read_always encode_always one_turn initial_world in
  camera_thread w =
    Some (CamThread C_head 1
            ([EvPublish (b "JPEG" ++ test_frame 0)]
               ++ EvSleep inter_frame_interval :: [])) /\
  (inter_frame_interval = inter_frame_interval /\
   exists pre' f, [EvPublish (b "JPEG" ++ test_frame 0)] = pre' ++ [EvPublish f]) /\
  read_never 7 = Read false [] /\
  set_frames_step (IsOpened true) read_never encode_always false []
    (CamThread C_read 7 [])
  = ([], CamThread C_head 8 []).
Proof.
  destruct failed_turn_does_not_sleep as (Htrace & Hr & _).
  split; [reflexivity|split; [|split; [reflexivity|]]].
  - apply (Htrace (IsOpened true) read_always encode_always one_turn
             [EvPublish (b "JPEG" ++ test_frame 0)] inter_frame_interval []).
    reflexivity.
  - apply (Hr _ _ _ _ _ _ _ []). reflexivity.
Defined.


(** * Further properties of the service *)

Section MoreServiceFacts.
Variable cam_open : open_result.
Variable cam_read : nat -> read_result.
Variable imencode : ndarray -> encode_result.

Local Abbreviation set_frames_step := (set_frames_step cam_open cam_read imencode).
Local Abbreviation step := (step cam_open cam_read imencode).
Local Abbreviation run := (run cam_open cam_read imencode).

(** ** What [set_frames] publishes *)

Lemma cycles_S (n : nat) :
  cycles cam_read imencode (S n) =
  cycles cam_read imencode n ++
  match cycle_result cam_read imencode n with Some f => [f] | None => [] end.
Proof.
  unfold cycles. rewrite seq_S, omap_app; simpl.
  by destruct (cycle_result cam_read imencode n).
Qed.

Ltac thread_fields := cbn [snd pc reads trace].

Lemma camera_accounted_step (stop : bool) (fb : list bytes) (t : cam_thread) :
  camera_accounted cam_read imencode t ->
  camera_accounted cam_read imencode (snd (set_frames_step stop fb t)).
Proof.
  unfold camera_accounted, set_frames_step, set_frames_except.
  destruct t as [p n tr]. destruct p; thread_fields.
  - intros H. destruct cam_open as [[]|e]; thread_fields;
      rewrite ?trace_published_app, ?app_nil_r; try done.
    destruct (exn_is_Exception e); thread_fields;
      by rewrite ?trace_published_app, ?app_nil_r.
  - intros H. by destruct stop.
  - intros H. destruct (cam_read n) as [[] frame|e] eqn:E; thread_fields.
    + by exists n.
    + rewrite cycles_S. unfold cycle_result. by rewrite E, app_nil_r.
    + destruct (exn_is_Exception e); thread_fields;
        rewrite cycles_S; unfold cycle_result; rewrite E;
        by rewrite ?trace_published_app, ?app_nil_r.
  - intros (k & -> & Hr & H).
    destruct (imencode frame) as [[] jpeg|e] eqn:E; thread_fields.
    + exists k. repeat split; try done.
      unfold cycle_result. by rewrite Hr, E.
    + rewrite cycles_S. unfold cycle_result. by rewrite Hr, E, app_nil_r.
    + destruct (exn_is_Exception e); thread_fields;
        rewrite cycles_S; unfold cycle_result; rewrite Hr, E;
        by rewrite ?trace_published_app, ?app_nil_r.
  - intros (k & -> & Hc & H). rewrite trace_published_app; simpl.
    by rewrite cycles_S, Hc, H.
  - intros H. by rewrite trace_published_app, app_nil_r.
  - done.
Qed.

(** ** A camera thread that has returned, or is told to stop between turns *)

Lemma set_frames_step_raises (stop : bool) (fb : list bytes) (t : cam_thread)
    (e : exn) :
  raises cam_open cam_read imencode t = Some e ->
  set_frames_step stop fb t =
  (fb, CamThread C_done
         (match pc t with C_read => S (reads t) | _ => reads t end)
         (trace t ++
            if exn_is_Exception e
            then [EvPrint ("Error while setting frames: " +:+ exn_str e)]
            else [])).
Proof.
  unfold raises, set_frames_step, set_frames_except.
  destruct t as [p n tr]; simpl. destruct p; simpl; try done.
  - destruct cam_open as [[]|e']; intros [= ->].
    destruct (exn_is_Exception e); by rewrite ?app_nil_r.
  - destruct (cam_read n) as [[]|e']; intros [= ->]; simpl.
    destruct (exn_is_Exception e); by rewrite ?app_nil_r.
  - destruct (imencode frame) as [[]|e']; intros [= ->].
    destruct (exn_is_Exception e); by rewrite ?app_nil_r.
Qed.

Lemma lifespan_entered_step (a : action) (w : world) :
  lifespan_pc w <> LS_init -> lifespan_pc (step a w) <> LS_init.
Proof.
  intros H. destruct a as [r|r| | |i]; simpl.
  - unfold lifespan_startup.
    destruct (lifespan_pc w) eqn:E; rewrite ?E; done.
  - unfold lifespan_shutdown.
    destruct (lifespan_pc w) eqn:E; rewrite ?E; done.
  - destruct (camera_thread w) as [t|]; last done.
    by destruct (set_frames_step _ _ t).
  - done.
  - by destruct (sessions w !! i).
Qed.

(** After [set_frames] has returned, nothing touches the buffer. *)
Lemma returned_run (sch : list action) (w : world) (t : cam_thread) :
  lifespan_pc w <> LS_init ->
  camera_thread w = Some t -> pc t = C_done ->
  frame_buffer (run sch w) = frame_buffer w /\
  camera_thread (run sch w) = Some t.
Proof.
  revert w. induction sch as [|a sch IH]; intros w Hl Hc Hp; first done.
  change (run (a :: sch) w) with (run sch (step a w)).
  assert (Ha : frame_buffer (step a w) = frame_buffer w /\
               camera_thread (step a w) = Some t).
  { destruct a as [r|r| | |i]; simpl.
    - unfold lifespan_startup.
      destruct (lifespan_pc w) eqn:E; rewrite ?E; done.
    - unfold lifespan_shutdown.
      destruct (lifespan_pc w) eqn:E; rewrite ?E; done.
    - rewrite Hc. unfold set_frames_step. rewrite Hp. by destruct t.
    - done.
    - by destruct (sessions w !! i). }
  destruct Ha as [Hb Hc'].
  destruct (IH (step a w) (lifespan_entered_step a w Hl) Hc' Hp) as [-> ->].
  by rewrite Hb.
Qed.

Lemma set_frames_step_between_turns (fb : list bytes) (t : cam_thread) :
  between_turns (pc t) ->
  let '(fb', t') := set_frames_step true fb t in
  fb' = fb /\ between_turns (pc t') /\ reads t' = reads t /\
  trace_published (trace t') = trace_published (trace t).
Proof.
  unfold set_frames_step, set_frames_except.
  destruct t as [p n tr]; simpl. destruct p; simpl; try done.
  - intros _. destruct cam_open as [[]|e]; simpl;
      rewrite ?trace_published_app, ?app_nil_r; try done.
    destruct (exn_is_Exception e); simpl;
      by rewrite ?trace_published_app, ?app_nil_r.
  - intros _. by rewrite trace_published_app, app_nil_r.
Qed.

(** The stop event set between two turns: no read and no publish
    follows. *)
Lemma stopped_between_turns_run (sch : list action) (w : world) (t : cam_thread) :
  stopped w -> camera_thread w = Some t -> between_turns (pc t) ->
  frame_buffer (run sch w) = frame_buffer w /\
  exists t', camera_thread (run sch w) = Some t' /\
    reads t' = reads t /\
    trace_published (trace t') = trace_published (trace t).
Proof.
  revert w t. induction sch as [|a sch IH]; intros w t Hw Hc Hp.
  - split; first done. by exists t.
  - change (run (a :: sch) w) with (run sch (step a w)).
    assert (Ha : frame_buffer (step a w) = frame_buffer w /\
                 exists t1, camera_thread (step a w) = Some t1 /\
                   between_turns (pc t1) /\ reads t1 = reads t /\
                   trace_published (trace t1) = trace_published (trace t)).
    { destruct Hw as [Hs Hl]. destruct a as [r|r| | |i]; simpl.
      - unfold lifespan_startup. rewrite Hl. split; first done. by exists t.
      - unfold lifespan_shutdown. rewrite Hl. split; first done. by exists t.
      - rewrite Hc, Hs.
        pose proof (set_frames_step_between_turns (frame_buffer w) t Hp) as H.
        destruct (set_frames_step true _ t) as [fb1 t1]; simpl.
        destruct H as (-> & ? & ? & ?). split; first done. by exists t1.
      - split; first done. by exists t.
      - destruct (sessions w !! i); (split; first done); by exists t. }
    destruct Ha as (Hb & t1 & Hc1 & Hp1 & Hr1 & Ht1).
    destruct (IH _ _ (stopped_step _ _ _ a w Hw) Hc1 Hp1)
      as (Hb' & t' & Hc' & Hr' & Ht').
    split; first congruence. exists t'. repeat split; congruence.
Qed.

(** ** Sessions *)

(** A property of a session that [get_frames()] establishes and every
    statement keeps holds of every session in every world a schedule
    reaches. *)
Lemma sessions_ind (P : session -> Prop) :
  P (Session G_settle []) ->
  (forall fb s, P s -> P (get_frames_step fb s)) ->
  forall sch, Forall P (sessions (run sch initial_world)).
Proof.
  intros H0 Hstep sch.
  apply (run_ind cam_open cam_read imencode (fun w => Forall P (sessions w)));
    first constructor.
  intros w a IH. destruct a as [r|r| | |i]; simpl.
  - unfold lifespan_startup. destruct (lifespan_pc w); try done. by destruct r.
  - unfold lifespan_shutdown. by destruct (lifespan_pc w).
  - destruct (camera_thread w) as [t|]; last done.
    by destruct (set_frames_step _ _ t).
  - apply Forall_app. split; first done. by constructor.
  - destruct (sessions w !! i) as [s|] eqn:E; last done. simpl.
    apply Forall_insert; first done. apply Hstep.
    eapply Forall_lookup_1; eauto.
Qed.

Lemma snoc_not_nil {A} (l : list A) (x : A) : l ++ [x] <> [].
Proof. by destruct l. Qed.

Lemma session_shape_step (fb : list bytes) (s : session) :
  session_shape s -> session_shape (get_frames_step fb s).
Proof.
  intros (Hnil & Hfirst & Hlast & Hyield). unfold session_shape, get_frames_step.
  destruct (gpc s) eqn:E.
  - assert (Ho : out s = []) by (by apply Hnil). rewrite Ho. simpl.
    split; [by split|split; [by eexists|split; [by intros [|]|]]].
    intros pre c post H. destruct pre as [|? [|]]; done.
  - assert (Ho : out s <> []) by (intros H; by apply Hnil in H).
    destruct (Hfirst Ho) as [rest Hr]. simpl.
    split; [split; [by intros ?%snoc_not_nil|done]|].
    split; [rewrite Hr; by eexists|split; [by eexists|]].
    intros pre c post H.
    apply snoc_eq_middle in H as [(_ & ? & _)|(post0 & -> & H)]; first done.
    eauto.
  - assert (Ho : out s <> []) by (intros H; by apply Hnil in H).
    destruct (Deque.truthy fb); simpl.
    + split; [by split|split; [done|split; [auto|done]]].
    + split; [by split|split; [done|split; [by intros [|]|done]]].
  - assert (Ho : out s <> []) by (intros H; by apply Hnil in H).
    destruct (Deque.getitem_last fb) as [jpeg|]; simpl.
    + split; [split; [by intros ?%snoc_not_nil|done]|].
      split; [destruct (Hfirst Ho) as [rest ->]; by eexists|].
      split; [by intros [|]|].
      intros pre c post H.
      apply snoc_eq_middle in H as [(_ & _ & <-)|(post0 & -> & H)]; eauto.
    + split; [by split|split; [done|split; [by intros [|]|done]]].
  - by rewrite E.
Qed.

Lemma get_frames_steps_add (n m : nat) (fb : list bytes) (s : session) :
  get_frames_steps (n + m) fb s = get_frames_steps m fb (get_frames_steps n fb s).
Proof.
  revert s. induction n as [|n IH]; intros s; simpl; first done. apply IH.
Qed.

(** A schedule of statements of session [i] only is the session on its
    own. *)
Lemma run_session_only (n i : nat) (w : world) (s : session) :
  sessions w !! i = Some s ->
  run (repeat (A_session i) n) w =
  World (frame_buffer w) (stop_event w) (lifespan_pc w) (lifespan_trace w)
    (camera_thread w) (<[i := get_frames_steps n (frame_buffer w) s]> (sessions w)).
Proof.
  revert w s. induction n as [|n IH]; intros w s E; simpl.
  - rewrite list_insert_id by done. by destruct w.
  - change (run (A_session i :: repeat (A_session i) n) w)
      with (run (repeat (A_session i) n) (step (A_session i) w)).
    simpl. rewrite E.
    rewrite (IH _ (get_frames_step (frame_buffer w) s)); simpl.
    + by rewrite list_insert_insert_eq.
    + apply list_lookup_insert_eq. by eapply lookup_lt_Some.
Qed.

(** Once the buffer holds a frame it always holds one. *)
Lemma buffer_stays_filled (a : action) (w : world) :
  frame_buffer w <> [] -> frame_buffer (step a w) <> [].
Proof.
  intros H. destruct a as [r|r| | |i]; simpl.
  - unfold lifespan_startup. destruct (lifespan_pc w); try done. by destruct r.
  - unfold lifespan_shutdown. by destruct (lifespan_pc w).
  - destruct (camera_thread w) as [t|]; last done.
    pose proof (set_frames_step_cases cam_open cam_read imencode
                  (stop_event w) (frame_buffer w) t) as Hc.
    destruct (set_frames_step _ _ t) as [fb' t']; simpl.
    by destruct Hc as [[-> _]|(jpeg & _ & -> & _)].
  - done.
  - by destruct (sessions w !! i).
Qed.

(** One statement of a session on a buffer that holds a frame: a chunk
    more, or one statement less to the next chunk. *)
Lemma get_frames_step_progress (fb pubs : list bytes) (s : session) :
  fb <> [] -> session_ok fb pubs s ->
  let s' := get_frames_step fb s in
  length (chunks (out s)) <= length (chunks (out s')) /\
  (length (chunks (out s)) < length (chunks (out s')) \/
   S (statements_to_chunk (gpc s')) = statements_to_chunk (gpc s)).
Proof.
  intros Hfb (Hf & _ & _). unfold get_frames_step.
  destruct (gpc s) eqn:E; simpl.
  - rewrite chunks_app, app_nil_r. auto.
  - rewrite chunks_app, app_nil_r. auto.
  - destruct fb; first done. simpl. auto.
  - unfold Deque.getitem_last. destruct (last fb) as [f|] eqn:El.
    + simpl. rewrite chunks_app, length_app; simpl. split; [lia|left; lia].
    + by apply last_None in El.
  - by destruct (Hf e).
Qed.

(** The chunks of a session only grow, and on a buffer that holds a
    frame they grow once the session has run enough statements. *)
Lemma session_progress (i : nat) (sch : list action) (w : world) (s : session) :
  world_ok w -> frame_buffer w <> [] -> sessions w !! i = Some s ->
  exists s', sessions (run sch w) !! i = Some s' /\
    length (chunks (out s)) <= length (chunks (out s')) /\
    (statements_to_chunk (gpc s) <= session_steps i sch ->
     length (chunks (out s)) < length (chunks (out s'))).
Proof.
  revert w s. induction sch as [|a sch IH]; intros w s Hw Hfb Hs.
  - exists s. repeat split; [done | lia |].
    destruct Hw as [_ Hok]. pose proof (Forall_lookup_1 _ _ _ _ Hok Hs) as (Hf & _).
    simpl. destruct (gpc s) eqn:E; simpl; try lia. by destruct (Hf e).
  - change (run (a :: sch) w) with (run sch (step a w)).
    pose proof (world_ok_step cam_open cam_read imencode a w Hw) as Hw1.
    pose proof (buffer_stays_filled a w Hfb) as Hfb1.
    assert (Hsame : sessions (step a w) !! i = Some s ->
                    session_steps i (a :: sch) = session_steps i sch ->
                    exists s', sessions (run sch (step a w)) !! i = Some s' /\
                      length (chunks (out s)) <= length (chunks (out s')) /\
                      (statements_to_chunk (gpc s) <= session_steps i (a :: sch) ->
                       length (chunks (out s)) < length (chunks (out s')))).
    { intros Hs1 ->. by apply IH. }
    destruct a as [r|r| | |j].
    + apply Hsame; last done. simpl. unfold lifespan_startup.
      destruct (lifespan_pc w); try done. by destruct r.
    + apply Hsame; last done. simpl. unfold lifespan_shutdown.
      by destruct (lifespan_pc w).
    + apply Hsame; last done. simpl.
      destruct (camera_thread w) as [t|]; last done.
      by destruct (set_frames_step _ _ t).
    + apply Hsame; last done. simpl. by apply lookup_app_l_Some.
    + destruct (decide (i = j)) as [<-|Hne].
      * destruct Hw as [_ Hok].
        pose proof (Forall_lookup_1 _ _ _ _ Hok Hs) as Hsok.
        pose proof (get_frames_step_progress _ _ s Hfb Hsok) as (Hle & Hstep).
        assert (Hs1 : sessions (step (A_session i) w) !! i
                      = Some (get_frames_step (frame_buffer w) s)).
        { simpl. rewrite Hs. simpl. apply list_lookup_insert_eq.
          by eapply lookup_lt_Some. }
        destruct (IH _ _ Hw1 Hfb1 Hs1) as (s' & Hs' & Hle' & Hlt').
        exists s'. simpl session_steps. rewrite Nat.eqb_refl.
        repeat split; [done | lia |]. intros Hn.
        destruct Hstep as [Hlt|Hdec]; first lia.
        assert (length (chunks (out (get_frames_step (frame_buffer w) s)))
                < length (chunks (out s'))) by (apply Hlt'; lia).
        lia.
      * apply Hsame.
        -- simpl. destruct (sessions w !! j); last done. simpl.
           by rewrite list_lookup_insert_ne.
        -- simpl. by apply Nat.eqb_neq in Hne as ->.
Qed.

(** ** One session and the others *)

Lemma same_for_session_step (i : nat) (a : action) (w1 w2 : world) :
  same_for_session i w1 w2 ->
  match a with
  | A_session j =>
      if Nat.eqb i j then same_for_session i (step a w1) (step a w2)
      else same_for_session i (step a w1) w2
  | _ => same_for_session i (step a w1) (step a w2)
  end.
Proof.
  intros ((Hb & Hs & Hp & Ht & Hc) & Hlen & Hi). unfold same_for_session, same_producer.
  destruct a as [r|r| | |j]; simpl.
  - unfold lifespan_startup. rewrite Hp.
    destruct (lifespan_pc w2) eqn:E; [|repeat split; congruence..].
    destruct r; simpl; repeat split; congruence.
  - unfold lifespan_shutdown. rewrite Hp.
    destruct (lifespan_pc w2) eqn:E; simpl; repeat split; congruence.
  - rewrite Hc, Hb, Hs. destruct (camera_thread w2) as [t|] eqn:E.
    + destruct (set_frames_step _ _ t); simpl. repeat split; congruence.
    + repeat split; congruence.
  - repeat split; try done.
    + rewrite !length_app. by rewrite Hlen.
    + destruct (decide (i < length (sessions w1))) as [Hlt|Hge].
      * rewrite !lookup_app_l by lia. done.
      * rewrite !lookup_app_r by lia. by rewrite Hlen.
  - destruct (Nat.eqb_spec i j) as [<-|Hne].
    + rewrite <- Hi, Hb. destruct (sessions w1 !! i) as [s|] eqn:E; simpl.
      * repeat split; try done.
        -- by rewrite !length_insert.
        -- rewrite !list_lookup_insert_eq; first done.
           ++ rewrite <- Hlen. by eapply lookup_lt_Some.
           ++ by eapply lookup_lt_Some.
      * repeat split; congruence.
    + destruct (sessions w1 !! j) as [s|] eqn:E; simpl.
      * repeat split; try done.
        -- by rewrite length_insert.
        -- by rewrite list_lookup_insert_ne.
      * by repeat split.
Qed.

Lemma session_unaffected (i : nat) (sch : list action) (w1 w2 : world) :
  same_for_session i w1 w2 ->
  same_for_session i (run sch w1) (run (without_others i sch) w2).
Proof.
  revert w1 w2. induction sch as [|a sch IH]; intros w1 w2 H; first done.
  pose proof (same_for_session_step i a w1 w2 H) as Ha.
  change (run (a :: sch) w1) with (run sch (step a w1)).
  destruct a as [r|r| | |j]; simpl without_others;
    try (change (run (?a :: ?l) w2) with (run l (step a w2)); by apply IH).
  destruct (Nat.eqb i j); last by apply IH.
  change (run (?a :: ?l) w2) with (run l (step a w2)). by apply IH.
Qed.
End MoreServiceFacts.

Lemma concat_repeat_snoc {A} (r : list A) (n : nat) :
  concat (repeat r n) ++ r = concat (repeat r (S n)).
Proof.
  induction n as [|n IH]; simpl in *; first by rewrite app_nil_r.
  by rewrite <- app_assoc, IH.
Qed.

(** One session on a buffer that stays as it is. *)
Lemma still_buffer_run (fb : list bytes) (f : bytes) (n : nat) :
  get_frames_steps (1 + 3 * n) (fb ++ [f]) (Session G_settle []) =
  Session G_yield (GAwait 0.1 :: concat (repeat [GAwait 0; GYield (chunk f)] n)).
Proof.
  induction n as [|n IH]; first done.
  replace (1 + 3 * S n) with ((1 + 3 * n) + 3) by lia.
  rewrite get_frames_steps_add, IH.
  cbn [get_frames_steps get_frames_step gpc out].
  assert (Ht : Deque.truthy (fb ++ [f]) = true) by (by destruct fb).
  rewrite Ht. cbn [get_frames_step gpc out]. unfold Deque.getitem_last.
  rewrite last_snoc. rewrite <- concat_repeat_snoc.
  f_equal. by rewrite <- !app_assoc.
Qed.

Lemma empty_buffer_run (n : nat) :
  get_frames_steps (1 + 2 * n) [] (Session G_settle []) =
  Session G_yield (GAwait 0.1 :: repeat (GAwait 0) n).
Proof.
  induction n as [|n IH]; first done.
  replace (1 + 2 * S n) with ((1 + 2 * n) + 2) by lia.
  rewrite get_frames_steps_add, IH. simpl. f_equal. f_equal.
  by rewrite repeat_cons.
Qed.

Lemma chunks_rounds (f : bytes) (n : nat) :
  chunks (concat (repeat [GAwait 0; GYield (chunk f)] n)) = repeat (chunk f) n.
Proof. induction n as [|n IH]; simpl; by rewrite ?IH. Qed.

(** A world in which nothing has been published: the buffer is empty
    and no session has a chunk. *)
Lemma nothing_published (w : world) :
  world_ok w -> cam_published w = [] ->
  frame_buffer w = [] /\ Forall (fun s => chunks (out s) = []) (sessions w).
Proof.
  intros [[Hb _] Hs] Hp. unfold sessions_ok in Hs. rewrite Hp in Hb, Hs.
  split; first done.
  eapply Forall_impl; first exact Hs.
  intros s (_ & _ & idx & _ & Ho).
  destruct Ho as [|i c idx cs (f & Hi & _) _]; first done.
  by rewrite lookup_nil in Hi.
Qed.

(** In a world the service has reached, the stop event is set only
    after [lifespan] has been left. *)
Lemma stop_set_is_stopped cam_open cam_read imencode (sch : list action) :
  let w := run cam_open cam_read imencode sch initial_world in
  stop_event w = true -> stopped w.
Proof.
  intros w Hstop. split; first done.
  pose proof (lifespan_ok_run cam_open cam_read imencode sch) as Hl.
  fold w in Hl. unfold lifespan_ok in Hl.
  destruct (lifespan_pc w); [| |done]; destruct Hl as [? _]; congruence.
Qed.

Lemma camera_thread_entered cam_open cam_read imencode (sch : list action)
    (t : cam_thread) :
  let w := run cam_open cam_read imencode sch initial_world in
  camera_thread w = Some t -> lifespan_pc w <> LS_init.
Proof.
  intros w Hc.
  pose proof (lifespan_ok_run cam_open cam_read imencode sch) as Hl.
  fold w in Hl. unfold lifespan_ok in Hl.
  destruct (lifespan_pc w); try done.
  destruct Hl as (_ & _ & ?). congruence.
Qed.

(** * Further theorems *)

(** X1.  In every world the service reaches the buffer holds at most
    one frame, and exactly the frame the camera thread published last:
    it is empty only as long as nothing has been published. *)
Theorem buffer_holds_only_latest_frame :
  forall cam_open cam_read imencode (sch : list action),
    let w := run cam_open cam_read imencode sch initial_world in
    length (frame_buffer w) <= 1 /\
    frame_buffer w = option_list (last (cam_published w)) /\
    peek (frame_buffer w) = last (cam_published w).
Proof.
  intros cam_open cam_read imencode sch w.
  destruct (buffer_is_latest_run cam_open cam_read imencode sch) as [Hb _].
  fold w in Hb. rewrite Hb.
  destruct (last (cam_published w)); simpl; repeat split; lia.
Qed.

(** X2.  The frames the camera thread has published are, in order and
    without gap or repetition, the encodings of the frames of its reads
    for which both the read and the encoding succeeded; while a frame is
    being encoded or appended, its read is counted and it is not yet
    among them. *)
Theorem published_frames_are_completed_turns :
  forall cam_open cam_read imencode (sch : list action),
    match camera_thread (run cam_open cam_read imencode sch initial_world) with
    | Some t =>
        trace_published (trace t) =
        cycles cam_read imencode
          (match pc t with
           | C_encode _ | C_append _ => pred (reads t)
           | _ => reads t
           end)
    | None => True
    end.
Proof.
  intros cam_open cam_read imencode sch.
  destruct (camera_thread _) as [t|] eqn:E; last done.
  apply (camera_thread_ind cam_open cam_read imencode
           (camera_accounted cam_read imencode)) in E.
  - unfold camera_accounted in E.
    destruct (pc t); try done; by destruct E as (n & -> & _ & ?).
  - done.
  - apply camera_accounted_step.
Qed.

(** X3.  An exception out of opening the device, of a read or of an
    encoding ends [set_frames] in that statement: the buffer is left as
    it is and, for an [Exception], the line with its message is printed.
    After [set_frames] has returned, for this or another reason, nothing
    that runs changes the buffer or the thread: the last frame stays. *)
Theorem raise_ends_camera_thread_for_good :
  (forall cam_open cam_read imencode stop fb t e,
     raises cam_open cam_read imencode t = Some e ->
     set_frames_step cam_open cam_read imencode stop fb t =
     (fb, CamThread C_done
            (match pc t with C_read => S (reads t) | _ => reads t end)
            (trace t ++
               if exn_is_Exception e
               then [EvPrint ("Error while setting frames: " +:+ exn_str e)]
               else []))) /\
  (forall cam_open cam_read imencode (sch0 sch : list action) t,
     let w := run cam_open cam_read imencode sch0 initial_world in
     let w' := run cam_open cam_read imencode sch w in
     camera_thread w = Some t -> pc t = C_done ->
     frame_buffer w' = frame_buffer w /\ camera_thread w' = Some t).
Proof.
  split.
  - intros. by apply set_frames_step_raises.
  - intros cam_open cam_read imencode sch0 sch t w w' Hc Hp.
    apply returned_run; try done.
    by eapply camera_thread_entered.
Qed.

(** X4.  When the stop event is set while the camera thread is not
    between a read and its publish (before the loop, at the loop test,
    in the sleep), the thread reads no more and publishes no more, and
    the buffer stays as it is, whatever runs afterwards. *)
Theorem stop_between_turns_publishes_nothing :
  forall cam_open cam_read imencode (sch0 sch : list action) t,
    let w := run cam_open cam_read imencode sch0 initial_world in
    let w' := run cam_open cam_read imencode sch w in
    stop_event w = true ->
    camera_thread w = Some t ->
    pc t = C_open \/ pc t = C_head \/ pc t = C_sleep \/ pc t = C_done ->
    frame_buffer w' = frame_buffer w /\
    exists t', camera_thread w' = Some t' /\
      reads t' = reads t /\
      trace_published (trace t') = trace_published (trace t).
Proof.
  intros cam_open cam_read imencode sch0 sch t w w' Hstop Hc Hp.
  apply stopped_between_turns_run; try done.
  - by apply stop_set_is_stopped.
  - by destruct Hp as [->|[->|[->| ->]]].
Qed.

(** X5.  In every world the service reaches, what a session has done
    starts with the settle delay of 0.1 s, and every chunk it has
    yielded comes right after an [await asyncio.sleep(0)]: a session
    never yields two chunks without giving way in between, and never
    looks at the buffer before the delay. *)
Theorem session_awaits_before_every_chunk :
  forall cam_open cam_read imencode (sch : list action),
    Forall (fun s =>
              (out s = [] <-> gpc s = G_settle) /\
              (out s <> [] -> exists rest, out s = GAwait 0.1 :: rest) /\
              (forall pre c post,
                 out s = pre ++ GYield c :: post ->
                 exists pre', pre = pre' ++ [GAwait 0]))
      (sessions (run cam_open cam_read imencode sch initial_world)).
Proof.
  intros cam_open cam_read imencode sch.
  eapply Forall_impl.
  - apply (sessions_ind cam_open cam_read imencode session_shape).
    + split; [by split|split; [done|split; [by intros [|]|]]].
      intros pre c post H. by destruct pre.
    + apply session_shape_step.
  - by intros s (? & ? & _ & ?).
Qed.

(** X6.  A session that runs while the buffer stays as it is: on a
    buffer whose last item is [f] it yields the chunk of [f] again every
    three statements ([n] chunks after [1 + 3 * n] statements); on the
    empty buffer it polls every two statements and yields nothing.  A
    schedule of statements of one session is this run. *)
Theorem session_repeats_frame_of_still_buffer :
  (forall (fb : list bytes) (f : bytes) (n : nat),
     let s := get_frames_steps (1 + 3 * n) (fb ++ [f]) (Session G_settle []) in
     s = Session G_yield
           (GAwait 0.1 :: concat (repeat [GAwait 0; GYield (chunk f)] n)) /\
     chunks (out s) = repeat (chunk f) n) /\
  (forall n : nat,
     get_frames_steps (1 + 2 * n) [] (Session G_settle []) =
     Session G_yield (GAwait 0.1 :: repeat (GAwait 0) n)) /\
  (forall cam_open cam_read imencode (n i : nat) (w : world) (s : session),
     sessions w !! i = Some s ->
     run cam_open cam_read imencode (repeat (A_session i) n) w =
     World (frame_buffer w) (stop_event w) (lifespan_pc w) (lifespan_trace w)
       (camera_thread w)
       (<[i := get_frames_steps n (frame_buffer w) s]> (sessions w))).
Proof.
  split; [|split].
  - intros fb f n s. subst s. rewrite still_buffer_run. split; first done.
    simpl. apply chunks_rounds.
  - apply empty_buffer_run.
  - intros. by apply run_session_only.
Qed.

(** X7.  In every world the service reaches, a session at line 51 finds
    a frame in the buffer, and its statement yields the chunk of the
    frame the camera thread published last. *)
Theorem session_yields_latest_frame :
  forall cam_open cam_read imencode (sch : list action) (i : nat) (s : session),
    let w := run cam_open cam_read imencode sch initial_world in
    sessions w !! i = Some s ->
    gpc s = G_index ->
    exists f,
      last (cam_published w) = Some f /\
      sessions (step cam_open cam_read imencode (A_session i) w) !! i
      = Some (Session G_yield (out s ++ [GYield (chunk f)])).
Proof.
  intros cam_open cam_read imencode sch i s w Hs Hp.
  destruct (world_ok_run cam_open cam_read imencode sch) as [[Hb _] Hok].
  fold w in Hb, Hok.
  pose proof (Forall_lookup_1 _ _ _ _ Hok Hs) as (_ & Hne & _).
  specialize (Hne Hp).
  destruct (last (cam_published w)) as [f|]; last done.
  exists f. split; first done. simpl. rewrite Hs. simpl.
  rewrite list_lookup_insert_eq by (by eapply lookup_lt_Some).
  unfold get_frames_step. by rewrite Hp, Hb.
Qed.

(** X8.  In a world the service has reached in which the buffer holds a
    frame, a session has a chunk more after four of its own statements,
    whatever else runs in between; its chunks are never taken back. *)
Theorem session_gets_chunk_within_four_statements :
  forall cam_open cam_read imencode (sch0 sch : list action) (i : nat)
         (s : session),
    let w := run cam_open cam_read imencode sch0 initial_world in
    frame_buffer w <> [] ->
    sessions w !! i = Some s ->
    exists s',
      sessions (run cam_open cam_read imencode sch w) !! i = Some s' /\
      length (chunks (out s)) <= length (chunks (out s')) /\
      (4 <= session_steps i sch ->
       length (chunks (out s)) < length (chunks (out s'))).
Proof.
  intros cam_open cam_read imencode sch0 sch i s w Hfb Hs.
  destruct (session_progress cam_open cam_read imencode i sch w s)
    as (s' & Hs' & Hle & Hlt); try done.
  { apply world_ok_run. }
  exists s'. repeat split; try done.
  intros H4. apply Hlt.
  assert (statements_to_chunk (gpc s) <= 4) by (destruct (gpc s); simpl; lia).
  lia.
Qed.

(** X9.  What a session is after a schedule does not depend on the
    statements of the other sessions: it is the same after the schedule
    without them.  The same holds of the buffer, the stop event,
    [lifespan] and the camera thread. *)
Theorem session_independent_of_other_sessions :
  forall cam_open cam_read imencode (i : nat) (sch : list action),
    let w := run cam_open cam_read imencode sch initial_world in
    let w' := run cam_open cam_read imencode (without_others i sch) initial_world in
    sessions w !! i = sessions w' !! i /\
    length (sessions w) = length (sessions w') /\
    same_producer w w'.
Proof.
  intros cam_open cam_read imencode i sch w w'.
  destruct (session_unaffected cam_open cam_read imencode i sch
              initial_world initial_world) as (? & ? & ?); last done.
  by repeat split.
Qed.

(** X10.  When creating or starting the camera thread raises, there is
    no camera thread afterwards, whatever runs: the stop event is set,
    nothing is ever published, the buffer stays empty and no session
    yields a chunk. *)
Theorem failed_start_leaves_no_camera_thread :
  forall cam_open cam_read imencode (e : exn) (sch : list action),
    let w := run cam_open cam_read imencode
               (A_startup (StartRaise e) :: sch) initial_world in
    camera_thread w = None /\
    stop_event w = true /\
    frame_buffer w = [] /\
    Forall (fun s => chunks (out s) = []) (sessions w).
Proof.
  intros cam_open cam_read imencode e sch w.
  pose (w1 := step cam_open cam_read imencode (A_startup (StartRaise e))
                initial_world).
  assert (Hst : stopped w1) by done.
  destruct (stopped_run cam_open cam_read imencode sch w1 Hst) as [[Hs _] Hc].
  assert (Hc' : camera_thread w = None) by exact Hc.
  assert (Hs' : stop_event w = true) by exact Hs.
  split; first done. split; first done.
  apply nothing_published.
  - apply world_ok_run.
  - unfold cam_published. by rewrite Hc'.
Qed.

(** X11.  The chunk of a frame is the frame with 39 bytes of framing
    around it, and two frames with the same chunk are the same frame. *)
Theorem chunk_length_and_injective :
  (forall jpeg : bytes, length (chunk jpeg) = length jpeg + 39) /\
  (forall jpeg1 jpeg2 : bytes, chunk jpeg1 = chunk jpeg2 -> jpeg1 = jpeg2).
Proof.
  split.
  - intros jpeg. unfold chunk. rewrite !length_app. simpl. lia.
  - intros jpeg1 jpeg2 H. unfold chunk in H.
    apply app_inv_head in H. by apply app_inv_tail in H.
Qed.

Lemma paced_step cam_open cam_read imencode
    (stop : bool) (fb : list bytes) (t : cam_thread) :
  paced t -> paced (snd (set_frames_step cam_open cam_read imencode stop fb t)).
Proof.
  unfold paced, set_frames_step, set_frames_except.
  destruct t as [p n tr]; simpl. intros [Hn Hq].
  repeat case_match; simplify_eq; simpl;
    rewrite ?trace_published_app, ?trace_sleeps_app, ?length_app; simpl;
    rewrite ?app_nil_r; (split; [lia|]); try done.
  apply Forall_app. split; first done. by constructor.
Qed.

(** X12.  In every world the service reaches, the camera thread has
    slept the interval once for every frame it has published, the frame
    whose sleep is about to start apart: [k] published frames mean at
    least [k - 1] sleeps of 0.034 s. *)
Theorem one_sleep_for_every_publish :
  forall cam_open cam_read imencode (sch : list action),
    match camera_thread (run cam_open cam_read imencode sch initial_world) with
    | Some t =>
        length (trace_published (trace t)) =
          length (trace_sleeps (trace t)) +
          match pc t with C_sleep => 1 | _ => 0 end /\
        Forall (fun q => q = inter_frame_interval) (trace_sleeps (trace t))
    | None => True
    end.
Proof.
  intros cam_open cam_read imencode sch.
  destruct (camera_thread _) as [t|] eqn:E; last done.
  apply (camera_thread_ind cam_open cam_read imencode paced) in E; first done.
  - by split.
  - apply paced_step.
Qed.

(** * The further theorems at concrete inputs *)

(** X3 on the device that raises at its second read: the read ends the
    thread with the line printed, and the first frame stays in the
    buffer while the thread and a viewer are run further. *)
Lemma raise_ends_camera_thread_for_good_witness :
  raises (IsOpened true) read_once_then_raise encode_always
    (CamThread C_read 1 []) = Some cv2_error /\
  set_frames_step (IsOpened true) read_once_then_raise encode_always false
    [b "JPEG"] (CamThread C_read 1 [])
  = ([b "JPEG"],
     CamThread C_done 2 [EvPrint "Error while setting frames: device lost"]) /\
  (let w := run (IsOpened true) read_once_then_raise encode_always
              until_second_read initial_world in
   let w' := run (IsOpened true) read_once_then_raise encode_always
               [A_camera; A_connect; A_session 0; A_camera] w in
   let t := CamThread C_done 2
              [EvPublish (b "JPEG" ++ test_frame 0); EvSleep inter_frame_interval;
               EvPrint "Error while setting frames: device lost"] in
   camera_thread w = Some t /\ pc t = C_done /\
   frame_buffer w = [b "JPEG" ++ test_frame 0] /\
   frame_buffer w' = frame_buffer w /\ camera_thread w' = Some t).
Proof.
  destruct raise_ends_camera_thread_for_good as (Hraise & Hdone).
  split; [reflexivity|split].
  - apply (Hraise _ _ _ _ _ (CamThread C_read 1 []) cv2_error). reflexivity.
  - intros w w' t.
    assert (Hc : camera_thread w = Some t) by reflexivity.
    split; [exact Hc|split; [reflexivity|split; [reflexivity|]]].
    exact (Hdone (IsOpened true) read_once_then_raise encode_always
             until_second_read [A_camera; A_connect; A_session 0; A_camera]
             t Hc eq_refl).
Defined.

(** X4 on a shutdown while the camera thread is at the loop test after
    its first turn. *)
Lemma stop_between_turns_publishes_nothing_witness :
  let w := run (IsOpened true) read_always encode_always
             (one_turn ++ [A_shutdown ResumeNormal]) initial_world in
  let w' := run (IsOpened true) read_always encode_always
              [A_camera; A_connect; A_camera; A_session 0] w in
  stop_event w = true /\
  camera_thread w =
    Some (CamThread C_head 1
            [EvPublish (b "JPEG" ++ test_frame 0); EvSleep inter_frame_interval]) /\
  frame_buffer w' = frame_buffer w /\
  exists t', camera_thread w' = Some t' /\
    reads t' = 1 /\
    trace_published (trace t') = [b "JPEG" ++ test_frame 0].
Proof.
  intros w w'. split; [reflexivity|split; [reflexivity|]].
  apply (stop_between_turns_publishes_nothing
           (IsOpened true) read_always encode_always
           (one_turn ++ [A_shutdown ResumeNormal])
           [A_camera; A_connect; A_camera; A_session 0]
           (CamThread C_head 1
              [EvPublish (b "JPEG" ++ test_frame 0);
               EvSleep inter_frame_interval])).
  - reflexivity.
  - reflexivity.
  - right. left. reflexivity.
Defined.

(** X5 on a viewer that has got its first chunk. *)
Lemma session_awaits_before_every_chunk_witness :
  let w := run (IsOpened true) read_always encode_always
             (viewer_at_index ++ [A_session 0]) initial_world in
  sessions w =
    [Session G_yield
       ([GAwait 0.1; GAwait 0] ++ GYield (chunk (b "JPEG" ++ test_frame 0)) :: [])] /\
  exists pre', [GAwait 0.1; GAwait 0] = pre' ++ [GAwait 0].
Proof.
  intros w.
  assert (Hs : sessions w =
               [Session G_yield
                  ([GAwait 0.1; GAwait 0]
                     ++ GYield (chunk (b "JPEG" ++ test_frame 0)) :: [])])
    by (vm_compute; reflexivity).
  split; first exact Hs.
  pose proof (session_awaits_before_every_chunk
                (IsOpened true) read_always encode_always
                (viewer_at_index ++ [A_session 0])) as H.
  change (run _ _ _ _ initial_world) with w in H. rewrite Hs in H.
  apply Forall_inv in H. destruct H as (_ & _ & H).
  apply (H [GAwait 0.1; GAwait 0] (chunk (b "JPEG" ++ test_frame 0)) []).
  reflexivity.
Defined.

(** X6 on a viewer that connects to the service before it has started:
    three statements of its session. *)
Lemma session_repeats_frame_of_still_buffer_witness :
  sessions (run (IsOpened true) read_always encode_always [A_connect]
              initial_world) !! 0 = Some (Session G_settle []) /\
  sessions (run (IsOpened true) read_always encode_always
              (repeat (A_session 0) 3)
              (run (IsOpened true) read_always encode_always [A_connect]
                 initial_world))
  = [get_frames_steps 3 [] (Session G_settle [])].
Proof.
  destruct session_repeats_frame_of_still_buffer as (_ & _ & H).
  split; first reflexivity.
  rewrite (H (IsOpened true) read_always encode_always 3 0
             (run (IsOpened true) read_always encode_always [A_connect]
                initial_world)
             (Session G_settle []) eq_refl).
  reflexivity.
Defined.

(** X7 on a viewer at line 51 after the first frame was published. *)
Lemma session_yields_latest_frame_witness :
  let w := run (IsOpened true) read_always encode_always viewer_at_index
             initial_world in
  sessions w !! 0 = Some (Session G_index [GAwait 0.1; GAwait 0]) /\
  exists f,
    last (cam_published w) = Some f /\
    sessions (step (IsOpened true) read_always encode_always (A_session 0) w) !! 0
    = Some (Session G_yield ([GAwait 0.1; GAwait 0] ++ [GYield (chunk f)])).
Proof.
  intros w. split; first reflexivity.
  apply (session_yields_latest_frame
           (IsOpened true) read_always encode_always viewer_at_index 0
           (Session G_index [GAwait 0.1; GAwait 0])); reflexivity.
Defined.

(** X8 on a viewer that connects after the first frame was published. *)
Lemma session_gets_chunk_within_four_statements_witness :
  let w := run (IsOpened true) read_always encode_always
             (one_turn ++ [A_connect]) initial_world in
  let sch := [A_session 0; A_camera; A_session 0; A_session 0; A_camera;
              A_session 0] in
  frame_buffer w <> [] /\
  sessions w !! 0 = Some (Session G_settle []) /\
  4 <= session_steps 0 sch /\
  exists s',
    sessions (run (IsOpened true) read_always encode_always sch w) !! 0 = Some s' /\
    0 < length (chunks (out s')).
Proof.
  intros w sch.
  assert (Hfb : frame_buffer w <> []) by discriminate.
  assert (H4 : 4 <= session_steps 0 sch) by (simpl; lia).
  split; [exact Hfb|split; [reflexivity|split; [exact H4|]]].
  destruct (session_gets_chunk_within_four_statements
              (IsOpened true) read_always encode_always
              (one_turn ++ [A_connect]) sch 0 (Session G_settle [])
              Hfb eq_refl) as (s' & Hs' & _ & Hlt).
  exists s'. split; [exact Hs'|exact (Hlt H4)].
Defined.

(** X11 at two equal chunks. *)
Lemma chunk_length_and_injective_witness :
  chunk (b "JPEGDATA") = chunk ([] ++ b "JPEGDATA") /\
  b "JPEGDATA" = [] ++ b "JPEGDATA".
Proof.
  destruct chunk_length_and_injective as (_ & Hinj).
  split; first reflexivity.
  apply Hinj. reflexivity.
Defined.
